(** * treemux: the OpenTelemetry middleware and the routing tree

    Part I embeds [extra/treemuxotel/treemuxotel.go]: the option
    functions, [NewMiddleware], [Middleware] and [remoteAddr].

    Part II models the routing core (pattern codec, insertion, lookup),
    which the middleware only consumes through [treemux.Request]. *)

From Stdlib Require Import Ascii.
From stdpp Require Import gmap strings list.

(** ** Byte-string helpers (Go's [strings] / [bytealg] primitives) *)

(** [strings.IndexByte]: first index of [c] in [s]; [None] is Go's [-1]. *)
Fixpoint IndexByte (s : string) (c : ascii) : option nat :=
  match s with
  | EmptyString => None
  | String a s' =>
      if Ascii.eqb a c then Some 0
      else match IndexByte s' c with
           | Some i => Some (S i)
           | None => None
           end
  end.

(** Last index of [c] in [s] ([net.last]); [None] is Go's [-1]. *)
Fixpoint LastIndexByte (s : string) (c : ascii) : option nat :=
  match s with
  | EmptyString => None
  | String a s' =>
      match LastIndexByte s' c with
      | Some i => Some (S i)
      | None => if Ascii.eqb a c then Some 0 else None
      end
  end.

(** The Go slice expressions [s[i:j]], [s[i:]] and [s[:j]]. *)
Definition slice (s : string) (i j : nat) : string := String.substring i (j - i) s.
Definition sliceFrom (s : string) (i : nat) : string :=
  String.substring i (String.length s - i) s.
Definition sliceTo (s : string) (j : nat) : string := String.substring 0 j s.

(** Go's [error] interface value: [None] is [nil]. *)
Definition error : Type := option string.

(** ** Part I: treemuxotel *)

(** [treemux.Param]: one captured path parameter. *)
Record Param : Type := mkParam { Name : string; Value : string }.

(** [label.KeyValue] restricted to string values, the only kind the
    middleware builds ([Key.String], [label.String]). *)
Record KeyValue : Type := mkKeyValue { Key : string; Val : string }.

(** [label.String(k, v)] and [Key.String(v)]. *)
Definition label_String (k v : string) : KeyValue := mkKeyValue k v.

(** [semconv.HTTPRouteKey] and [semconv.HTTPClientIPKey]. *)
Definition HTTPRouteKey : string := "http.route".
Definition HTTPClientIPKey : string := "http.client_ip".

(** The fields of [http.Request] that the middleware reads.  [Header]
    is Go's [map[string][]string]. *)
Record HttpRequest : Type := mkHttpRequest {
  Header : gmap string (list string);
  RemoteAddr : string
}.

(** [http.Header.Get]: the first value stored under the key, or the
    empty string.  The only key used here, [X-Forwarded-For], is
    already in canonical MIME form. *)
Definition Header_Get (h : gmap string (list string)) (k : string) : string :=
  match h !! k with
  | Some (v :: _) => v
  | _ => ""
  end.

(** Go's [net.SplitHostPort].  On every error path the host and the
    port are both the empty string; the error is an [AddrError], kept
    here as its [Error] text, which names the address unless the
    address is empty. *)
Definition addrErr (addr why : string) : string * string * error :=
  ("", "",
   Some (if bool_decide (addr ≠ "")
         then "address " +:+ addr +:+ ": " +:+ why
         else why)).

Definition missingPort : string := "missing port in address".
Definition tooManyColons : string := "too many colons in address".

Definition SplitHostPort (hostport : string) : string * string * error :=
  match LastIndexByte hostport ":" with
  | None => addrErr hostport missingPort
  | Some i =>
      let finish (host : string) (j k : nat) : string * string * error :=
        if IndexByte (sliceFrom hostport j) "[" is Some _ then
          addrErr hostport "unexpected '[' in address"
        else if IndexByte (sliceFrom hostport k) "]" is Some _ then
          addrErr hostport "unexpected ']' in address"
        else (host, sliceFrom hostport (i + 1), None) in
      if bool_decide (String.get 0 hostport = Some "["%char) then
        match IndexByte hostport "]" with
        | None => addrErr hostport "missing ']' in address"
        | Some e =>
            if bool_decide (e + 1 = String.length hostport) then
              addrErr hostport missingPort
            else if bool_decide (e + 1 = i) then
              finish (slice hostport 1 e) 1 (e + 1)
            else if bool_decide (String.get (e + 1) hostport = Some ":"%char) then
              addrErr hostport tooManyColons
            else addrErr hostport missingPort
        end
      else
        let host := sliceTo hostport i in
        if IndexByte host ":" is Some _ then addrErr hostport tooManyColons
        else finish host 0 0
  end.

(** [remoteAddr] (treemuxotel.go, lines 63-70). *)
Definition remoteAddr (req : HttpRequest) : string :=
  let forwarded := Header_Get (Header req) "X-Forwarded-For" in
  if bool_decide (forwarded ≠ "") then forwarded
  else
    let '(host, _, _) := SplitHostPort (RemoteAddr req) in
    host.

(** [config] and its functional options.  An [Option] mutates the
    config it is handed; here it returns the updated config. *)
Record config : Type := mkConfig { clientIP : bool }.

Definition Option : Type := config → config.

Definition WithClientIP (on : bool) : Option :=
  fun c => {| clientIP := on |}.

(** A span is an object of the tracing library.  Its state is whether
    it records and the attributes it has been asked to set, in order. *)
Record Span : Type := mkSpan {
  recording : bool;
  attributes : list KeyValue
}.

(** [trace.SpanFromContext] on a context without a span yields the
    no-op span, which never records. *)
Definition noopSpan : Span := mkSpan false [].

(** [treemux.Request]: the wrapped [http.Request], the span handle its
    context carries (if any), the matched route and the parameters. *)
Record Request : Type := mkRequest {
  Req : HttpRequest;
  ctxSpan : option nat;
  Route : string;
  Params : list Param
}.

Section Handlers.
(** [ResponseWriter] is the handle of an [http.ResponseWriter];
    [Sigma] is the state of everything a handler may touch besides
    spans (response writers, application state). *)
Context {ResponseWriter Sigma : Type}.

Record World : Type := mkWorld {
  spans : gmap nat Span;
  rest : Sigma
}.

(** [treemux.HandlerFunc] and [treemux.MiddlewareFunc]. *)
Definition HandlerFunc : Type :=
  ResponseWriter → Request → World → error * World.
Definition MiddlewareFunc : Type := HandlerFunc → HandlerFunc.

(** [trace.SpanFromContext(req.Context())] followed by reading the
    span's state. *)
Definition SpanFromContext (req : Request) (σ : World) : Span :=
  match ctxSpan req with
  | Some sid => default noopSpan (spans σ !! sid)
  | None => noopSpan
  end.

Definition IsRecording (sp : Span) : bool := recording sp.

(** [span.SetAttributes(attrs...)] on the span of the request. *)
Definition SetAttributes (req : Request) (attrs : list KeyValue)
    (σ : World) : World :=
  match ctxSpan req with
  | Some sid =>
      mkWorld
        (alter (fun sp => mkSpan (recording sp) (attributes sp ++ attrs))
               sid (spans σ))
        (rest σ)
  | None => σ
  end.

(** The attribute slice built on lines 42-55. *)
Definition routeAttrs (c : config) (req : Request) : list KeyValue :=
  let attrs := [] in
  let attrs := attrs ++ [label_String HTTPRouteKey (Route req)] in
  let attrs :=
    if clientIP c
    then attrs ++ [label_String HTTPClientIPKey (remoteAddr (Req req))]
    else attrs in
  fold_left
    (fun attrs param =>
       let name := Name param in
       let name := if bool_decide (name = "") then "*" else name in
       attrs ++ [label_String ("http.route.param." +:+ name) (Value param)])
    (Params req) attrs.

(** The method [Middleware] of [config] (lines 35-61). *)
Definition Middleware (c : config) (next : HandlerFunc) : HandlerFunc :=
  fun w req σ =>
    let span := SpanFromContext req σ in
    if negb (IsRecording span) then next w req σ
    else
      let attrs := routeAttrs c req in
      let σ := SetAttributes req attrs σ in
      next w req σ.

(** [NewMiddleware] (lines 25-33). *)
Definition NewMiddleware (opts : list Option) : MiddlewareFunc :=
  let c := {| clientIP := true |} in
  let c := fold_left (fun c opt => opt c) opts c in
  Middleware c.
End Handlers.

Arguments World : clear implicits.
Arguments HandlerFunc : clear implicits.
Arguments MiddlewareFunc : clear implicits.

(** ** Part II: the routing core

    The router itself (path codec, pattern decomposition, tree
    insertion, lookup) is what produces the [Route] and [Params] of a
    [treemux.Request].  Its code is not among the sources at hand:
    every definition of this part is modelled from the specification,
    whose sections are cited by number. *)

(** *** Path codec *)

(** Modelled from the spec: the exact prefix match of the matcher
    (4.3), whose code is absent: [stripPrefix pre s] is [Some rest]
    when [s] is [pre] followed by [rest]. *)
Fixpoint stripPrefix (pre s : string) : option string :=
  match pre with
  | EmptyString => Some s
  | String a pre' =>
      match s with
      | EmptyString => None
      | String b s' => if Ascii.eqb a b then stripPrefix pre' s' else None
      end
  end.

(** Modelled from the spec: the segment boundary of the matcher
    (4.3), whose code is absent: the bytes up to the next slash or the
    end of the path, and what follows (starting at that slash). *)
Fixpoint splitToken (p : string) : string * string :=
  match p with
  | EmptyString => ("", "")
  | String c p' =>
      if Ascii.eqb c "/" then ("", p)
      else let '(tok, r) := splitToken p' in (String c tok, r)
  end.

(** Modelled from the spec: the longest common prefix that insertion
    consumes (4.1), whose code is absent: the shared prefix of a node
    fragment and a literal, with what is left of each. *)
Fixpoint splitCommon (frag lit : string) : string * string * string :=
  match frag, lit with
  | String a frag', String b lit' =>
      if Ascii.eqb a b then
        let '(common, fr, lr) := splitCommon frag' lit' in
        (String a common, fr, lr)
      else ("", frag, lit)
  | _, _ => ("", frag, lit)
  end.

(** Modelled from the spec: the byte that keys a static child (3,
    Node). *)
Definition firstByte (s : string) : option ascii :=
  match s with
  | EmptyString => None
  | String c _ => Some c
  end.

(** Modelled from the spec: the value of a hexadecimal digit, for the
    percent-decoder of the path codec (4.2). *)
Definition unhex (c : ascii) : option nat :=
  let n := nat_of_ascii c in
  if (48 <=? n) && (n <=? 57) then Some (n - 48)
  else if (97 <=? n) && (n <=? 102) then Some (n - 87)
  else if (65 <=? n) && (n <=? 70) then Some (n - 55)
  else None.

(** Modelled from the spec: the percent-decoder of the path codec
    (4.2), whose code is absent.  Every [%XX] becomes the byte [XX]; a
    malformed escape makes the whole decoding fail. *)
Fixpoint unescape (s : string) : option string :=
  match s with
  | EmptyString => Some ""
  | String c s' =>
      if Ascii.eqb c "%" then
        match s' with
        | String a (String b s'') =>
            match unhex a, unhex b with
            | Some x, Some y =>
                match unescape s'' with
                | Some r => Some (String (ascii_of_nat (16 * x + y)) r)
                | None => None
                end
            | _, _ => None
            end
        | _ => None
        end
      else
        match unescape s' with
        | Some r => Some (String c r)
        | None => None
        end
  end.

(** Modelled from the spec: [UnescapeParam] of the path codec (4.2),
    whose code is absent.  A captured value is percent-decoded once; a
    value that does not decode is kept as it was captured. *)
Definition UnescapeParam (rawSegment : string) : string :=
  default rawSegment (unescape rawSegment).

(** Modelled from the spec: the two path sources of the configuration
    (4.2, 6).  [RawURI] hands the request-line path to the matcher as
    it was sent; [DecodedPath] hands it over already percent-decoded. *)
Inductive PathSource : Type := RawURI | DecodedPath.

(** Modelled from the spec: the path handed to the matcher under
    each path source (4.2). *)
Definition sourcePath (src : PathSource) (requestPath : string) : string :=
  match src with
  | RawURI => requestPath
  | DecodedPath => UnescapeParam requestPath
  end.

(** *** Patterns *)

(** Modelled from the spec: the registration-time form of a pattern
    (3, Pattern), whose code is absent: an ordered sequence of segments
    tagged static, wildcard or catch-all. *)
Inductive segment : Type :=
  | Static (lit : string)
  | Wildcard (name : string)
  | CatchAll (name : string).

(** Modelled from the spec: where the decomposition stands in the
    pattern (4.2): at the start of a path segment, inside literal text,
    or inside the name of a wildcard or catch-all. *)
Inductive scanMode : Type := SegStart | InStatic | InName.

(** Modelled from the spec: one more byte for the item being read
    (3, Pattern). *)
Definition pushByte (c : ascii) (r : string * list segment)
    : string * list segment :=
  (String c r.1, r.2).

(** Modelled from the spec: the end of a run of literal text, which
    becomes a static segment unless it is empty (3, Pattern). *)
Definition closeStatic (r : string * list segment) : list segment :=
  match r.1 with
  | EmptyString => r.2
  | lit => Static lit :: r.2
  end.

(** Modelled from the spec: pattern decomposition with the escaping
    rules of 4.2, whose code is absent.  A [:] or [*] opens a wildcard or a catch-all only as
    the first byte of a path segment; a backslash followed by [:], [*]
    or a backslash, again only at the start of a segment, stands for
    the second byte taken literally.  [scan] returns the bytes that
    continue the item being read and the segments after it. *)
Fixpoint scan (m : scanMode) (s : string) : string * list segment :=
  match s with
  | EmptyString => ("", [])
  | String c s' =>
      let literal :=
        if Ascii.eqb c "/" then pushByte c (scan SegStart s')
        else pushByte c (scan InStatic s') in
      match m with
      | InName =>
          if Ascii.eqb c "/"
          then ("", closeStatic (pushByte c (scan SegStart s')))
          else pushByte c (scan InName s')
      | SegStart =>
          if Ascii.eqb c ":" then
            let r := scan InName s' in ("", Wildcard r.1 :: r.2)
          else if Ascii.eqb c "*" then
            let r := scan InName s' in ("", CatchAll r.1 :: r.2)
          else if Ascii.eqb c "\" then
            match s' with
            | String d s'' =>
                if Ascii.eqb d ":" || Ascii.eqb d "*" || Ascii.eqb d "\"
                then pushByte d (scan InStatic s'')
                else literal
            | EmptyString => literal
            end
          else literal
      | InStatic => literal
      end
  end.

(** Modelled from the spec: the segments of a pattern (3, Pattern). *)
Definition decompose (pattern : string) : list segment :=
  closeStatic (scan SegStart pattern).

(** Modelled from the spec: the literal text that insertion consumes
    next (4.1): what a pattern starts with, adjacent static segments
    read as one run, and the segments after it. *)
Fixpoint litOf (segs : list segment) : string * list segment :=
  match segs with
  | Static lit :: rest =>
      let '(lit', rest') := litOf rest in (lit +:+ lit', rest')
  | _ => ("", segs)
  end.

(** Modelled from the spec: the registration-time errors (4.1, 7). *)
Inductive InsertError : Type :=
  | DuplicateRoute
  | AmbiguousWildcardNames
  | CatchAllConflict
  | CatchAllNotLast.

(** The outcome of a registration: the new tree or an error. *)
Inductive result (A : Type) : Type :=
  | Ok (a : A)
  | Err (e : InsertError).
Arguments Ok {A} a.
Arguments Err {A} e.

(** Sequencing of registration steps: the first error ends them. *)
Definition bindR {A B : Type} (r : result A) (k : A → result B) : result B :=
  match r with
  | Ok a => k a
  | Err e => Err e
  end.

Notation "'let?' x := e 'in' k" := (bindR e (fun x => k))
  (at level 10, x name, e at level 100, k at level 200).

(** Two list traversals the tree algorithms are written with. *)
Section ListWalks.
Context {A B : Type}.

(** The first result a function yields along a list. *)
Fixpoint firstSome (f : A → option B) (l : list A) : option B :=
  match l with
  | [] => None
  | x :: l' =>
      match f x with
      | Some r => Some r
      | None => firstSome f l'
      end
  end.

(** Replace the first element that satisfies [sel] by what [f] makes
    of it; [None] when no element is selected. *)
Fixpoint updateFirst (sel : A → bool) (f : A → result A) (l : list A)
    : option (result (list A)) :=
  match l with
  | [] => None
  | x :: l' =>
      if sel x then Some (let? x' := f x in Ok (x' :: l'))
      else
        match updateFirst sel f l' with
        | Some r => Some (let? l'' := r in Ok (x :: l''))
        | None => None
        end
  end.

(** What [f] makes of the first element that satisfies [sel]. *)
Fixpoint pickFirst (sel : A → bool) (f : A → option B) (l : list A)
    : option B :=
  match l with
  | [] => None
  | x :: l' => if sel x then f x else pickFirst sel f l'
  end.
End ListWalks.


(** Modelled from the spec: when a path matches a pattern, and with
    which captured values (4.3 and the glossary).  A static segment
    matches its literal text; a wildcard matches exactly one non-empty
    path segment, up to the next slash or the end of the path; a
    catch-all ends the pattern and matches the whole remainder, which
    must not be empty.  Captured values are percent-decoded. *)
Inductive Matches : list segment → string → list string → Prop :=
  | MatchEnd : Matches [] "" []
  | MatchStatic lit segs p vals :
      Matches segs p vals → Matches (Static lit :: segs) (lit +:+ p) vals
  | MatchWildcard name segs tok p vals :
      tok ≠ "" → IndexByte tok "/" = None →
      p = "" ∨ firstByte p = Some "/"%char →
      Matches segs p vals →
      Matches (Wildcard name :: segs) (tok +:+ p) (UnescapeParam tok :: vals)
  | MatchCatchAll name p :
      p ≠ "" → Matches [CatchAll name] p [UnescapeParam p].

(** *** The routing tree *)

(** Modelled from the spec: a route entry of a node's method table
    (3, Route entry), whose code is absent: the handler and the pattern it was registered
    under, which is the route reported with a match. *)
Record entry (H : Type) : Type := mkEntry {
  handler : H;
  route : string
}.
Arguments mkEntry {H} handler route.
Arguments handler {H} e.
Arguments route {H} e.

#[local] Unset Elimination Schemes.
(** Modelled from the spec: a tree node (3, Node), whose code is
    absent.  [path] is the
    static fragment the node consumes; it is empty for a wildcard
    child and holds the declared name for a catch-all child.  The
    names declared by the wildcards on the way to a node are kept with
    the node that terminates the pattern, so that [/:page] and
    [/:year/:month] share one wildcard child as the scenario set of the
    spec requires. *)
Inductive node (H : Type) : Type := mkNode {
  path : string;
  staticChild : list (node H);
  wildcardChild : option (node H);
  catchAllChild : option (node H);
  leafHandler : gmap string (entry H);
  leafWildcardNames : list string;
  addSlash : bool
}.
#[local] Set Elimination Schemes.
Arguments mkNode {H} path staticChild wildcardChild catchAllChild
  leafHandler leafWildcardNames addSlash.
Arguments path {H} n.
Arguments staticChild {H} n.
Arguments wildcardChild {H} n.
Arguments catchAllChild {H} n.
Arguments leafHandler {H} n.
Arguments leafWildcardNames {H} n.
Arguments addSlash {H} n.

Section Tree.
Context {H : Type}.

(** Modelled from the spec: a node as insertion creates it (4.1):
    no children, no routes. *)
Definition emptyNode (frag : string) : node H :=
  mkNode frag [] None None ∅ [] false.

(** Modelled from the spec: the empty tree (3, Tree): the root
    consumes nothing. *)
Definition emptyTree : node H := emptyNode "".

(** Modelled from the spec: a node with children and no route of its
    own (3, Node). *)
Definition branchNode (frag : string) (sc : list (node H))
    (wc cc : option (node H)) : node H :=
  mkNode frag sc wc cc ∅ [] false.

(** Modelled from the spec: a node with one route and no children
    (3, Node). *)
Definition leafNode (frag method : string) (e : entry H)
    (names : list string) (slash : bool) : node H :=
  mkNode frag [] None None (<[method := e]> ∅) names slash.

(** Modelled from the spec: a node terminates a registered pattern
    when its method table is not empty (4.3). *)
Definition isTerminal (n : node H) : bool :=
  bool_decide (dom (leafHandler n) ≠ (∅ : gset string)).

(** Modelled from the spec: the node with its fragment shortened by
    a split (4.1). *)
Definition setPath (frag : string) (n : node H) : node H :=
  mkNode frag (staticChild n) (wildcardChild n) (catchAllChild n)
    (leafHandler n) (leafWildcardNames n) (addSlash n).

(** Modelled from the spec: the node with one more static child,
    after those it has (4.1). *)
Definition addStatic (c : node H) (n : node H) : node H :=
  mkNode (path n) (staticChild n ++ [c]) (wildcardChild n)
    (catchAllChild n) (leafHandler n) (leafWildcardNames n) (addSlash n).

(** Modelled from the spec: the node with a wildcard child attached
    (4.1). *)
Definition setWildcard (w : node H) (n : node H) : node H :=
  mkNode (path n) (staticChild n) (Some w) (catchAllChild n)
    (leafHandler n) (leafWildcardNames n) (addSlash n).

(** Modelled from the spec: the node with a catch-all child attached
    (4.1). *)
Definition setCatchAll (c : node H) (n : node H) : node H :=
  mkNode (path n) (staticChild n) (wildcardChild n) (Some c)
    (leafHandler n) (leafWildcardNames n) (addSlash n).

(** Modelled from the spec: the static child in charge of the
    literals that start with [b] (3, Node). *)
Definition startsWith (b : ascii) (c : node H) : bool :=
  bool_decide (firstByte (path c) = Some b).

(** Modelled from the spec: what a registration does to the node
    that terminates its pattern (4.1), whose code is absent.  The first registration that
    reaches the node fixes the wildcard names and the trailing-slash
    flag; a later one for another method adds its entry and leaves
    both as they are; a different list of names or the same method
    again is an error. *)
Definition setHandler (method : string) (e : entry H) (slash : bool)
    (names : list string) (n : node H) : result (node H) :=
  if isTerminal n then
    if bool_decide (leafWildcardNames n = names) then
      match leafHandler n !! method with
      | Some _ => Err DuplicateRoute
      | None =>
          Ok (mkNode (path n) (staticChild n) (wildcardChild n)
                (catchAllChild n) (<[method := e]> (leafHandler n))
                (leafWildcardNames n) (addSlash n))
      end
    else Err AmbiguousWildcardNames
  else
    Ok (mkNode (path n) (staticChild n) (wildcardChild n)
          (catchAllChild n) (<[method := e]> (leafHandler n))
          names slash).

Section Insertion.
(** [upd names n] is applied to the node that terminates the pattern,
    with the wildcard names declared on the way. *)
Variable upd : list string → node H → result (node H).

(** Modelled from the spec: continuing below [n], under a new static
    child with fragment [lit] when there is literal text to consume
    (4.1). *)
Definition underNew (n : node H) (lit : string)
    (f : node H → result (node H)) : result (node H) :=
  match lit with
  | EmptyString => f n
  | _ => let? c := f (emptyNode lit) in Ok (addStatic c n)
  end.

(** Modelled from the spec: attaching the part of a pattern that
    walks off the existing tree (4.1), whose code is absent.  [lit] is literal text still to
    be consumed below [n]; it becomes the fragment of a new static
    child.  A catch-all must end the pattern. *)
Fixpoint grow (n : node H) (lit : string) (segs : list segment)
    (names : list string) : result (node H) :=
  match segs with
  | [] => underNew n lit (upd names)
  | Static l :: rest => grow n (lit +:+ l) rest names
  | Wildcard name :: rest =>
      underNew n lit (fun m =>
        let? w := grow (emptyNode "") "" rest (names ++ [name]) in
        Ok (setWildcard w m))
  | CatchAll name :: rest =>
      underNew n lit (fun m =>
        match rest with
        | [] =>
            let? c := upd (names ++ [name]) (emptyNode name) in
            Ok (setCatchAll c m)
        | _ => Err CatchAllNotLast
        end)
  end.

(** Modelled from the spec: the radix-tree split (4.1): the node
    keeps the shared prefix and the old node, shortened to its suffix,
    becomes its only child. *)
Definition splitNode (common fragRest : string) (c : node H) : node H :=
  mkNode common [setPath fragRest c] None None ∅ [] false.

(** Modelled from the spec: inserting below the static child [c]
    that shares the first byte of [lit] (4.1): descend when the whole fragment is a prefix of [lit],
    split the child otherwise. *)
Definition insertChild
    (rec : node H → list segment → list string → result (node H))
    (lit : string) (rest : list segment) (names : list string)
    (c : node H) : result (node H) :=
  let '(common, fragRest, litRest) := splitCommon (path c) lit in
  match fragRest with
  | EmptyString => rec c (Static litRest :: rest) names
  | _ => grow (splitNode common fragRest c) litRest rest names
  end.

(** Modelled from the spec: the insertion walk (4.1), whose code is
    absent.  At each node
    the longest common prefix of the pattern's literal text and a
    static child's fragment is consumed; a fragment that is only partly
    shared is split.  A wildcard reuses the wildcard child, a catch-all
    reuses a catch-all child of the same name and must end the
    pattern. *)
Fixpoint insertAt (n : node H) (segs : list segment)
    (names : list string) {struct n} : result (node H) :=
  match n with
  | mkNode frag sc wc cc lh ns sl =>
      let '(lit, rest) := litOf segs in
      match lit with
      | String b _ =>
          match updateFirst (startsWith b)
                  (insertChild insertAt lit rest names) sc with
          | Some r => let? sc' := r in Ok (mkNode frag sc' wc cc lh ns sl)
          | None => grow n lit rest names
          end
      | EmptyString =>
          match rest with
          | [] => upd names n
          | Wildcard name :: rest' =>
              match wc with
              | Some w =>
                  let? w' := insertAt w rest' (names ++ [name]) in
                  Ok (mkNode frag sc (Some w') cc lh ns sl)
              | None => grow n "" rest names
              end
          | CatchAll name :: rest' =>
              match cc with
              | Some c =>
                  match rest' with
                  | [] =>
                      if bool_decide (path c = name) then
                        let? c' := upd (names ++ [name]) c in
                        Ok (mkNode frag sc wc (Some c') lh ns sl)
                      else Err CatchAllConflict
                  | _ => Err CatchAllNotLast
                  end
              | None => grow n "" rest names
              end
          | Static _ :: _ => grow n "" rest names
          end
      end
  end.
End Insertion.

(** Modelled from the spec: the trailing slash of a pattern (4.1).
    A pattern longer than one byte that ends with a slash is registered
    at the node of the pattern without that slash, with the
    trailing-slash flag requested. *)
Definition trailingSlash (pattern : string) : bool * string :=
  let n := String.length pattern in
  if (1 <? n) && bool_decide (String.get (n - 1) pattern = Some "/"%char)
  then (true, sliceTo pattern (n - 1))
  else (false, pattern).

(** Modelled from the spec: [Insert(method, pattern, handler)] (4.1),
    whose code is absent. *)
Definition Insert (root : node H) (method pattern : string) (h : H)
    : result (node H) :=
  let '(slash, p) := trailingSlash pattern in
  insertAt (setHandler method (mkEntry h pattern) slash) root
    (decompose p) [].

(** Modelled from the spec: registering a list of routes in order,
    as a program does at setup (3, Tree), stopping at the first
    error. *)
Fixpoint InsertAll (root : node H) (routes : list (string * string * H))
    : result (node H) :=
  match routes with
  | [] => Ok root
  | (method, pattern, h) :: routes' =>
      let? root' := Insert root method pattern h in
      InsertAll root' routes'
  end.

(** *** The matcher *)

(** Modelled from the spec: trying the next branch when one fails
    (4.3). *)
Definition orElse {A : Type} (a b : option A) : option A :=
  match a with
  | Some r => Some r
  | None => b
  end.

(** Modelled from the spec: the node itself matches when nothing of
    the path is left and the node terminates a pattern (4.3). *)
Definition searchHere (n : node H) (p : string)
    : option (node H * list string) :=
  match p with
  | EmptyString => if isTerminal n then Some (n, []) else None
  | _ => None
  end.

(** Modelled from the spec: the static children whose fragment is a
    prefix of the path, in order, until one leads to a full match
    (4.3). *)
Definition searchStatic
    (rec : node H → string → option (node H * list string))
    (sc : list (node H)) (p : string) : option (node H * list string) :=
  firstSome
    (fun c =>
       match stripPrefix (path c) p with
       | Some p' => rec c p'
       | None => None
       end)
    sc.

(** Modelled from the spec: the wildcard child takes exactly one path
    segment, which must not be empty, and binds its decoded value
    (4.3). *)
Definition searchWildcard
    (rec : node H → string → option (node H * list string))
    (wc : option (node H)) (p : string) : option (node H * list string) :=
  match wc with
  | Some w =>
      let '(tok, p') := splitToken p in
      match tok with
      | EmptyString => None
      | _ =>
          match rec w p' with
          | Some (found, vals) => Some (found, UnescapeParam tok :: vals)
          | None => None
          end
      end
  | None => None
  end.

(** Modelled from the spec: the catch-all child takes the whole
    remainder of the path, and is rejected when that remainder is empty
    (4.3). *)
Definition searchCatchAll (cc : option (node H)) (p : string)
    : option (node H * list string) :=
  match cc with
  | Some c =>
      match p with
      | EmptyString => None
      | _ => if isTerminal c then Some (c, [UnescapeParam p]) else None
      end
  | None => None
  end.

(** Modelled from the spec: the matcher's traversal (4.3), whose
    code is absent.  The
    branches are tried in strict priority order and a branch that does
    not lead to a full match is abandoned for the next one.  The result
    is the node that terminates the matched pattern and the captured
    values from left to right. *)
Fixpoint search (n : node H) (p : string) {struct n}
    : option (node H * list string) :=
  match n with
  | mkNode frag sc wc cc lh ns sl =>
      orElse (searchHere n p)
        (orElse (searchStatic search sc p)
           (orElse (searchWildcard search wc p)
              (searchCatchAll cc p)))
  end.

(** Modelled from the spec: the outcomes of [Lookup] (4.3), whose
    code is absent. *)
Inductive LookupResult : Type :=
  | Found (h : H) (params : list Param) (routeName : string)
  | NotFound
  | MethodNotAllowed (allowed : gset string).

(** Modelled from the spec: the parameters of a match, names paired
    with values in declaration order (3, Param). *)
Definition bindParams (names vals : list string) : list Param :=
  zip_with mkParam names vals.

(** Modelled from the spec: the method check at the node a path has
    matched (4.3). *)
Definition dispatch (method : string) (r : node H * list string)
    : LookupResult :=
  match leafHandler r.1 !! method with
  | Some e =>
      Found (handler e) (bindParams (leafWildcardNames r.1) r.2) (route e)
  | None => MethodNotAllowed (dom (leafHandler r.1))
  end.

(** Modelled from the spec: [Lookup(method, cleanPath)] (4.3), whose
    code is absent. *)
Definition Lookup (root : node H) (method cleanPath : string)
    : LookupResult :=
  match search root cleanPath with
  | Some r => dispatch method r
  | None => NotFound
  end.

(** *** Tree invariants and positions *)

(** Modelled from the spec: static children are keyed by their first
    byte (3, Node): every fragment is non-empty and no two siblings
    start with the same byte. *)
Fixpoint keyed (cs : list (node H)) : bool :=
  match cs with
  | [] => true
  | c :: cs' =>
      match firstByte (path c) with
      | Some b => forallb (fun c' => negb (startsWith b c')) cs' && keyed cs'
      | None => false
      end
  end.

(** Modelled from the spec: the invariant above at every node of a
    tree. *)
Fixpoint wellKeyed (n : node H) : bool :=
  match n with
  | mkNode frag sc wc cc lh ns sl =>
      keyed sc && forallb wellKeyed sc
      && from_option wellKeyed true wc
      && from_option wellKeyed true cc
  end.

(** Modelled from the spec: descending from the static child [c]
    that shares the first byte of [lit], without creating or splitting
    anything (4.1). *)
Definition locateChild
    (rec : node H → list segment → option (node H))
    (lit : string) (rest : list segment) (c : node H) : option (node H) :=
  let '(common, fragRest, litRest) := splitCommon (path c) lit in
  match fragRest with
  | EmptyString => rec c (Static litRest :: rest)
  | _ => None
  end.

(** Modelled from the spec: the node that the insertion walk of a
    pattern reaches in a tree, if the tree has it (4.1).  It follows
    the choices of [insertAt]. *)
Fixpoint locate (n : node H) (segs : list segment) {struct n}
    : option (node H) :=
  match n with
  | mkNode frag sc wc cc lh ns sl =>
      let '(lit, rest) := litOf segs in
      match lit with
      | String b _ => pickFirst (startsWith b) (locateChild locate lit rest) sc
      | EmptyString =>
          match rest with
          | [] => Some n
          | Wildcard name :: rest' =>
              match wc with
              | Some w => locate w rest'
              | None => None
              end
          | CatchAll name :: [] =>
              match cc with
              | Some c => if bool_decide (path c = name) then Some c else None
              | None => None
              end
          | _ => None
          end
      end
  end.

(** Modelled from the spec: the pattern that leads from a node down
    to another one: the static fragments along the way, a wildcard for
    each wildcard child (its declared name is kept with the node that
    terminates the pattern) and the catch-all with its name. *)
Inductive Trace : node H → list segment → node H → Prop :=
  | TraceHere n : Trace n [] n
  | TraceStatic n c segs m :
      c ∈ staticChild n → Trace c segs m →
      Trace n (Static (path c) :: segs) m
  | TraceWildcard n w name segs m :
      wildcardChild n = Some w → Trace w segs m →
      Trace n (Wildcard name :: segs) m
  | TraceCatchAll n c :
      catchAllChild n = Some c → Trace n [CatchAll (path c)] c.

(** Modelled from the spec: the node a registration of [pattern]
    reaches (4.1). *)
Definition nodeOf (root : node H) (pattern : string) : option (node H) :=
  locate root (decompose (trailingSlash pattern).2).

(** Modelled from the spec: where a successful insertion of [segs]
    into [n], giving [n'], has applied [upd] (4.1): to the node [segs] reached in [n] when there was
    one, to a node without routes otherwise; and [segs] reaches the
    updated node in [n']. *)
Definition reached (upd : list string → node H → result (node H))
    (n n' : node H) (segs : list segment) : Prop :=
  ∃ names m0 m',
    upd names m0 = Ok m'
    ∧ locate n' segs = Some m'
    ∧ match locate n segs with
      | Some m => m0 = m
      | None => leafHandler m0 = ∅
      end.

(** Modelled from the spec: [n'] is [n] after later registrations
    (3, Route entry; 4.1): every route of [n] is
    still there and, if [n] terminated a pattern, its trailing-slash
    flag and wildcard names are the same. *)
Definition extends (n n' : node H) : Prop :=
  (∀ method e, leafHandler n !! method = Some e →
               leafHandler n' !! method = Some e)
  ∧ (isTerminal n = true →
     addSlash n' = addSlash n ∧ leafWildcardNames n' = leafWildcardNames n).
End Tree.

Arguments isTerminal : simpl never.
Arguments LookupResult : clear implicits.

(** ** Sample inputs *)

(** A handler that succeeds and touches nothing. *)
Definition okHandler : HandlerFunc unit unit := fun _ _ σ => (None, σ).

(** A request matched by [/user/:id/*] whose context carries span 0. *)
Definition sampleRequest : Request :=
  mkRequest (mkHttpRequest ∅ "192.0.2.7:4711") (Some 0) "/user/:id/*"
    [mkParam "id" "42"; mkParam "" "a/b"].

Definition recordingWorld : World unit :=
  mkWorld {[ 0 := mkSpan true [] ]} tt.

Definition idleWorld : World unit :=
  mkWorld {[ 0 := mkSpan false [] ]} tt.

(** The routing-priority example of the README. *)
Definition blogRoutes : list (string * string * string) :=
  [("GET", "/:page", "page");
   ("GET", "/:year/:month/:post", "post");
   ("GET", "/:year/:month", "archive");
   ("GET", "/images/*path", "static");
   ("GET", "/favicon.ico", "favicon")].

(** A node below which a static route, a wildcard route and a
    catch-all route are siblings: [about], [:page] and [*rest]. *)
Definition aboutNode : node string :=
  leafNode "about" "GET" (mkEntry "aboutPage" "/about") [] false.

Definition siblingsNode : node string :=
  branchNode "/" [aboutNode]
    (Some (leafNode "" "GET" (mkEntry "anyPage" "/:page") ["page"] false))
    (Some (leafNode "rest" "GET" (mkEntry "fallback" "/*rest") ["rest"] false)).

Definition siblingRoutes : list (string * string * string) :=
  [("GET", "/about", "aboutPage");
   ("GET", "/:page", "anyPage");
   ("GET", "/*rest", "fallback")].

(** The tree after [GET /posts/], and after [POST /posts] on top. *)
Definition postsNode : node string :=
  leafNode "/posts" "GET" (mkEntry "index" "/posts/") [] true.

Definition postsTree : node string := branchNode "" [postsNode] None None.

Definition postsTree' : node string :=
  branchNode ""
    [mkNode "/posts" [] None None
       (<["POST" := mkEntry "form" "/posts"]>
          (<["GET" := mkEntry "index" "/posts/"]> ∅))
       [] true]
    None None.

(** * Properties *)

(** ** Part I: treemuxotel *)

Section MiddlewareProps.
Context {ResponseWriter Sigma : Type}.
Implicit Types (c : config) (next : HandlerFunc ResponseWriter Sigma)
  (w : ResponseWriter) (req : Request) (σ : World Sigma).

(** The attribute of one route parameter. *)
Local Abbreviation paramAttr :=
  (fun p : Param =>
     mkKeyValue
       ("http.route.param." +:+
          (if bool_decide (Name p = "") then "*" else Name p))
       (Value p)).

Lemma fold_left_snoc {A B : Type} (f : B → A) (l : list B) (acc : list A) :
  fold_left (fun acc x => acc ++ [f x]) l acc = acc ++ map f l.
Proof.
  revert acc. induction l as [|x l IH]; intros acc; simpl.
  - by rewrite app_nil_r.
  - rewrite IH. by rewrite <- app_assoc.
Qed.

Lemma routeAttrs_eq c req :
  routeAttrs c req =
    mkKeyValue HTTPRouteKey (Route req)
    :: (if clientIP c
        then [mkKeyValue HTTPClientIPKey (remoteAddr (Req req))]
        else [])
    ++ map paramAttr (Params req).
Proof.
  unfold routeAttrs, label_String.
  rewrite (fold_left_snoc paramAttr).
  by destruct (clientIP c).
Qed.

Lemma recording_span req σ :
  IsRecording (SpanFromContext req σ) = true →
  ∃ sid sp, ctxSpan req = Some sid ∧ spans σ !! sid = Some sp
            ∧ recording sp = true ∧ SpanFromContext req σ = sp.
Proof.
  unfold SpanFromContext, IsRecording.
  destruct (ctxSpan req) as [sid|]; [|done].
  destruct (spans σ !! sid) as [sp|] eqn:Hsp; [|done].
  simpl. intros Hrec. by exists sid, sp.
Qed.

Lemma SpanFromContext_SetAttributes req attrs σ :
  IsRecording (SpanFromContext req σ) = true →
  attributes (SpanFromContext req (SetAttributes req attrs σ))
  = attributes (SpanFromContext req σ) ++ attrs.
Proof.
  intros (sid & sp & Hctx & Hsp & _ & Heq)%recording_span.
  unfold SpanFromContext, SetAttributes in *. rewrite Hctx in *. simpl.
  rewrite lookup_alter_eq, Hsp. simpl. by rewrite Hsp in Heq; subst.
Qed.

Lemma SetAttributes_frame req attrs σ :
  rest (SetAttributes req attrs σ) = rest σ
  ∧ ∀ sid, ctxSpan req ≠ Some sid →
      spans (SetAttributes req attrs σ) !! sid = spans σ !! sid.
Proof.
  unfold SetAttributes. destruct (ctxSpan req) as [sid0|]; [|done].
  split; [done|]. intros sid Hne. simpl.
  apply lookup_alter_ne. congruence.
Qed.

Lemma Middleware_recording c next w req σ :
  IsRecording (SpanFromContext req σ) = true →
  Middleware c next w req σ
  = next w req (SetAttributes req (routeAttrs c req) σ).
Proof. intros Hrec. unfold Middleware. by rewrite Hrec. Qed.

Lemma Middleware_idle c next w req σ :
  IsRecording (SpanFromContext req σ) = false →
  Middleware c next w req σ = next w req σ.
Proof. intros Hrec. unfold Middleware. by rewrite Hrec. Qed.

(** C1: on a recording span the wrapped handler sets, after the
    route attribute and the optional client address, exactly one
    attribute per entry of [req.Params], in the order of the
    entries: its key is ["http.route.param."] followed by the
    parameter's name (["*"] for the empty name), its value is the
    parameter's value.  No other attribute is set. *)
Theorem Middleware_sets_param_attributes c next w req σ :
  IsRecording (SpanFromContext req σ) = true →
  ∃ σ' pre,
    Middleware c next w req σ = next w req σ'
    ∧ attributes (SpanFromContext req σ')
      = attributes (SpanFromContext req σ) ++ pre
          ++ map paramAttr (Params req)
    ∧ Forall (fun kv => Key kv = "http.route" ∨ Key kv = "http.client_ip")
        pre.
Proof.
  intros Hrec.
  exists (SetAttributes req (routeAttrs c req) σ).
  exists (mkKeyValue HTTPRouteKey (Route req)
            :: if clientIP c
               then [mkKeyValue HTTPClientIPKey (remoteAddr (Req req))]
               else []).
  split; [by apply Middleware_recording|].
  split.
  - rewrite SpanFromContext_SetAttributes by done.
    by rewrite routeAttrs_eq.
  - destruct (clientIP c); repeat (constructor; [by (left + right)|]); constructor.
Qed.

(** C2: the wrapped handler makes one call to [next] and returns
    what that call returns, error or success, together with the
    world that call leaves; the middleware itself changes nothing
    but the request's own span before the call. *)
Theorem Middleware_returns_next_result c next w req σ :
  ∃ σ',
    Middleware c next w req σ = next w req σ'
    ∧ rest σ' = rest σ
    ∧ ∀ sid, ctxSpan req ≠ Some sid → spans σ' !! sid = spans σ !! sid.
Proof.
  destruct (IsRecording (SpanFromContext req σ)) eqn:Hrec.
  - exists (SetAttributes req (routeAttrs c req) σ).
    split; [by apply Middleware_recording|].
    apply SetAttributes_frame.
  - exists σ. split; [by apply Middleware_idle|]. done.
Qed.

(** C8: when the span does not record, the wrapped handler is the
    call to [next] on the unchanged world: no attribute is set. *)
Theorem Middleware_not_recording_is_next c next w req σ :
  IsRecording (SpanFromContext req σ) = false →
  Middleware c next w req σ = next w req σ.
Proof. apply Middleware_idle. Qed.
End MiddlewareProps.

Lemma last_cons_default {A : Type} (l : list A) (a d d' : A) :
  List.last (a :: l) d = List.last (a :: l) d'.
Proof.
  revert a. induction l as [|b l IH]; intros a; [done|].
  change (List.last (b :: l) d = List.last (b :: l) d'). apply IH.
Qed.

Lemma fold_WithClientIP (bs : list bool) (c : config) :
  clientIP (fold_left (fun c opt => opt c) (map WithClientIP bs) c)
  = List.last bs (clientIP c).
Proof.
  revert c. induction bs as [|b bs IH]; intros c; [done|].
  simpl fold_left. rewrite IH. simpl clientIP.
  destruct bs as [|b' bs]; [done|].
  change (List.last (b' :: bs) b = List.last (b' :: bs) (clientIP c)).
  apply last_cons_default.
Qed.

Lemma paramKey_not_clientIP (name : string) :
  "http.route.param." +:+ name ≠ HTTPClientIPKey.
Proof. unfold HTTPClientIPKey. simpl. discriminate. Qed.

Lemma clientIP_attr_iff (c : config) (req : Request) :
  (∃ kv, kv ∈ routeAttrs c req ∧ Key kv = HTTPClientIPKey)
  ↔ clientIP c = true.
Proof.
  rewrite routeAttrs_eq. split.
  - intros (kv & Hin & Hkey).
    apply elem_of_cons in Hin as [->|Hin]; [done|].
    apply elem_of_app in Hin as [Hin|Hin].
    + by destruct (clientIP c); [|apply elem_of_nil in Hin].
    + apply list_elem_of_fmap in Hin as (p & -> & _).
      simpl in Hkey. by apply paramKey_not_clientIP in Hkey.
  - intros ->. exists (mkKeyValue HTTPClientIPKey (remoteAddr (Req req))).
    split; [|reflexivity].
    apply elem_of_cons. right. apply elem_of_app. left. apply list_elem_of_here.
Qed.

(** C9: [NewMiddleware] runs its options from left to right on a
    config whose [clientIP] starts as [true], so the last
    [WithClientIP] decides; on a recording span the attribute
    [http.client_ip] is among those set exactly when that final value
    is [true], and it always is when no option is given. *)
Theorem NewMiddleware_last_WithClientIP_wins {ResponseWriter Sigma : Type} :
  (∀ opts : list Option,
      @NewMiddleware ResponseWriter Sigma opts
      = Middleware (fold_left (fun c opt => opt c) opts (mkConfig true)))
  ∧ (∀ bs : list bool,
        clientIP (fold_left (fun c opt => opt c) (map WithClientIP bs)
                    (mkConfig true))
        = List.last bs true)
  ∧ (∀ (bs : list bool) (next : HandlerFunc ResponseWriter Sigma) w req σ,
        IsRecording (SpanFromContext req σ) = true →
        ∃ σ' added,
          NewMiddleware (map WithClientIP bs) next w req σ = next w req σ'
          ∧ attributes (SpanFromContext req σ')
            = attributes (SpanFromContext req σ) ++ added
          ∧ ((∃ kv, kv ∈ added ∧ Key kv = "http.client_ip")
             ↔ List.last bs true = true))
  ∧ (∀ (next : HandlerFunc ResponseWriter Sigma) w req σ,
        IsRecording (SpanFromContext req σ) = true →
        ∃ σ' added,
          NewMiddleware [] next w req σ = next w req σ'
          ∧ attributes (SpanFromContext req σ')
            = attributes (SpanFromContext req σ) ++ added
          ∧ mkKeyValue "http.client_ip" (remoteAddr (Req req)) ∈ added).
Proof.
  split; [done|]. split; [intros bs; apply fold_WithClientIP|]. split.
  - intros bs next w req σ Hrec. unfold NewMiddleware.
    set (c := fold_left _ _ _).
    exists (SetAttributes req (routeAttrs c req) σ), (routeAttrs c req).
    split; [by apply Middleware_recording|].
    split; [by apply SpanFromContext_SetAttributes|].
    rewrite (clientIP_attr_iff c req). unfold c.
    by rewrite fold_WithClientIP.
  - intros next w req σ Hrec. unfold NewMiddleware. simpl fold_left.
    exists (SetAttributes req (routeAttrs (mkConfig true) req) σ),
      (routeAttrs (mkConfig true) req).
    split; [by apply Middleware_recording|].
    split; [by apply SpanFromContext_SetAttributes|].
    rewrite routeAttrs_eq. simpl.
    apply elem_of_cons. right. apply list_elem_of_here.
Qed.

Lemma SplitHostPort_error (hostport host port why : string) :
  SplitHostPort hostport = (host, port, Some why) → host = "" ∧ port = "".
Proof.
  unfold SplitHostPort, addrErr.
  repeat (case_match; try congruence); intros [= <- <- _]; done.
Qed.

(** ** Part II: the routing core *)

(** *** Strings *)

Lemma stripPrefix_firstByte (pre p p' : string) (b : ascii) :
  stripPrefix pre p = Some p' → firstByte pre = Some b → firstByte p = Some b.
Proof.
  destruct pre as [|a pre]; [done|]. destruct p as [|a' p]; [done|]. simpl.
  destruct (Ascii.eqb a a') eqn:Heq; [|done].
  apply Ascii.eqb_eq in Heq as ->. by intros _ [= ->].
Qed.

Lemma stripPrefix_all (pre p : string) :
  stripPrefix pre p = Some "" ↔ p = pre.
Proof.
  revert p. induction pre as [|a pre IH]; intros p; simpl.
  - split; [by intros [= ->]|by intros ->].
  - destruct p as [|b p]; [done|].
    destruct (Ascii.eqb a b) eqn:Hab.
    + apply Ascii.eqb_eq in Hab as ->. rewrite IH. split; congruence.
    + apply Ascii.eqb_neq in Hab. split; [done|]. congruence.
Qed.

Lemma append_cons (a : ascii) (s t : string) :
  String a s +:+ t = String a (s +:+ t).
Proof. reflexivity. Qed.

Lemma append_empty_l (t : string) : "" +:+ t = t.
Proof. reflexivity. Qed.

Lemma append_empty_r (s : string) : s +:+ "" = s.
Proof. induction s as [|a s IH]; [done|]. by rewrite append_cons, IH. Qed.

Lemma append_assoc (a b c : string) : (a +:+ b) +:+ c = a +:+ (b +:+ c).
Proof.
  induction a as [|x a IH]; [done|]. by rewrite !append_cons, IH.
Qed.

Lemma length_append (a b : string) :
  String.length (a +:+ b) = String.length a + String.length b.
Proof.
  induction a as [|x a IH]; [done|]. rewrite append_cons. simpl. by rewrite IH.
Qed.

Lemma IndexByte_cons_ne (x c : ascii) (s : string) :
  IndexByte (String x s) c = None → x ≠ c ∧ IndexByte s c = None.
Proof.
  simpl. destruct (Ascii.eqb x c) eqn:Hx; [done|].
  apply Ascii.eqb_neq in Hx. by destruct (IndexByte s c).
Qed.

Lemma IndexByte_None_get (s : string) (c : ascii) (k : nat) :
  IndexByte s c = None → String.get k s ≠ Some c.
Proof.
  revert k. induction s as [|x s IH]; intros k Hs; [by destruct k|].
  apply IndexByte_cons_ne in Hs as [Hx Hs].
  destruct k as [|k]; simpl; [congruence|by apply IH].
Qed.

Lemma get_append_r (a b : string) (k : nat) :
  String.get (String.length a + k) (a +:+ b) = String.get k b.
Proof. induction a as [|x a IH]; [done|]. rewrite append_cons. simpl. apply IH. Qed.

(** *** Escaped markers in patterns *)

(** Inside literal text every byte up to the next slash is literal. *)
Lemma scan_InStatic_token (tok more : string) :
  IndexByte tok "/" = None →
  scan InStatic (tok +:+ more)
  = (tok +:+ (scan InStatic more).1, (scan InStatic more).2).
Proof.
  induction tok as [|x tok IH]; intros Htok.
  - rewrite !append_empty_l. by destruct (scan InStatic more).
  - apply IndexByte_cons_ne in Htok as [Hx Htok].
    rewrite !append_cons. cbn [scan].
    destruct (Ascii.eqb x "/") eqn:Hx'; [by apply Ascii.eqb_eq in Hx'|].
    rewrite IH by done. reflexivity.
Qed.

(** At the start of a segment a backslash makes the marker after it
    the first byte of literal text. *)
Lemma scan_escaped (c : ascii) (tok more : string) :
  c = ":"%char ∨ c = "*"%char → IndexByte tok "/" = None →
  scan SegStart (String "\" (String c (tok +:+ more)))
  = (String c tok +:+ (scan InStatic more).1, (scan InStatic more).2).
Proof.
  intros Hc Htok. cbn [scan].
  replace (Ascii.eqb "\" ":") with false by reflexivity.
  replace (Ascii.eqb "\" "*") with false by reflexivity.
  replace (Ascii.eqb "\" "\") with true by reflexivity.
  cbv iota.
  replace (Ascii.eqb c ":" || Ascii.eqb c "*" || Ascii.eqb c "\") with true
    by (by destruct Hc as [-> | ->]).
  rewrite scan_InStatic_token by done. reflexivity.
Qed.

(** Literal text without markers, up to and including a slash, is
    passed on as it is; what follows the slash starts a segment. *)
Lemma scan_plain (dir s : string) (m : scanMode) :
  m ≠ InName →
  IndexByte dir ":" = None → IndexByte dir "*" = None →
  IndexByte dir "\" = None →
  scan m (dir +:+ String "/" s)
  = (dir +:+ String "/" (scan SegStart s).1, (scan SegStart s).2).
Proof.
  revert m. induction dir as [|x dir IH]; intros m Hm H1 H2 H3.
  - rewrite !append_empty_l. by destruct m.
  - apply IndexByte_cons_ne in H1 as [Hx1 H1].
    apply IndexByte_cons_ne in H2 as [Hx2 H2].
    apply IndexByte_cons_ne in H3 as [Hx3 H3].
    rewrite !append_cons.
    assert (Hlit : scan m (String x (dir +:+ String "/" s))
                   = if Ascii.eqb x "/"
                     then pushByte x (scan SegStart (dir +:+ String "/" s))
                     else pushByte x (scan InStatic (dir +:+ String "/" s))).
    { destruct m; [|done|done]. cbn [scan].
      apply Ascii.eqb_neq in Hx1, Hx2, Hx3. by rewrite Hx1, Hx2, Hx3. }
    rewrite Hlit. destruct (Ascii.eqb x "/"); by rewrite IH.
Qed.

(** *** Literal runs and common prefixes *)

Lemma litOf_rest (segs : list segment) lit rest :
  litOf segs = (lit, rest) → litOf rest = ("", rest).
Proof.
  revert lit rest.
  induction segs as [|[l|name|name] segs IH]; intros lit rest; simpl.
  - by intros [= <- <-].
  - destruct (litOf segs) as [l' r'] eqn:Hl. intros [= <- <-]. by eapply IH.
  - by intros [= <- <-].
  - by intros [= <- <-].
Qed.

Lemma litOf_static (segs : list segment) l lit rest :
  litOf segs = (lit, rest) → litOf (Static l :: segs) = (l +:+ lit, rest).
Proof. intros Hl. simpl. by rewrite Hl. Qed.

Lemma litOf_resume (segs : list segment) lit rest l :
  litOf segs = (lit, rest) → litOf (Static l :: rest) = (l, rest).
Proof.
  intros Hl%litOf_rest. rewrite (litOf_static _ _ _ _ Hl).
  by rewrite append_empty_r.
Qed.

Lemma splitCommon_spec (frag lit common fr lr : string) :
  splitCommon frag lit = (common, fr, lr) →
  frag = common +:+ fr ∧ lit = common +:+ lr
  ∧ ∀ a b, firstByte fr = Some a → firstByte lr = Some b → a ≠ b.
Proof.
  revert lit common fr lr.
  induction frag as [|a frag IH]; intros lit common fr lr.
  - simpl. intros [= <- <- <-]. by destruct lit.
  - destruct lit as [|b lit]; simpl.
    + by intros [= <- <- <-].
    + destruct (Ascii.eqb a b) eqn:Hab.
      * apply Ascii.eqb_eq in Hab as ->.
        destruct (splitCommon frag lit) as [[cm fr'] lr'] eqn:Hs.
        intros [= <- <- <-].
        destruct (IH _ _ _ _ Hs) as (-> & -> & Hne). done.
      * apply Ascii.eqb_neq in Hab. intros [= <- <- <-].
        split; [done|]. split; [done|]. simpl. congruence.
Qed.

Lemma splitCommon_prefix (common lr : string) :
  splitCommon common (common +:+ lr) = (common, "", lr).
Proof.
  induction common as [|a common IH].
  - rewrite append_empty_l. by destruct lr.
  - rewrite append_cons. simpl. by rewrite Ascii.eqb_refl, IH.
Qed.

Lemma splitCommon_firstByte (frag lit common fr lr : string) (b : ascii) :
  splitCommon frag lit = (common, fr, lr) →
  firstByte frag = Some b → firstByte lit = Some b →
  firstByte common = Some b.
Proof.
  destruct frag as [|a frag], lit as [|a' lit]; try done. simpl.
  intros Hs [= ->] [= ->]. rewrite Ascii.eqb_refl in Hs.
  destruct (splitCommon frag lit) as [[cm fr'] lr']. by injection Hs as <- _ _.
Qed.

Section RouterProps.
Context {H : Type}.
Implicit Types (n c w t : node H) (p : string) (cs : list (node H)).

(** *** The matcher, one node at a time *)

Lemma search_eq n p :
  search n p =
    orElse (searchHere n p)
      (orElse (searchStatic search (staticChild n) p)
         (orElse (searchWildcard search (wildcardChild n) p)
            (searchCatchAll (catchAllChild n) p))).
Proof. by destruct n. Qed.

Lemma isTerminal_insert frag sc wc cc (lh : gmap string (entry H)) ns sl m e :
  isTerminal (mkNode frag sc wc cc (<[m := e]> lh) ns sl) = true.
Proof.
  unfold isTerminal. apply bool_decide_eq_true. simpl.
  rewrite dom_insert_L. set_solver.
Qed.

Lemma isTerminal_leafHandler n :
  isTerminal n = true ↔ leafHandler n ≠ ∅.
Proof.
  unfold isTerminal. rewrite bool_decide_eq_true.
  split; intros Hn Hd; apply Hn.
  - by rewrite Hd, dom_empty_L.
  - by apply dom_empty_inv_L.
Qed.

Lemma isTerminal_empty frag sc wc cc ns sl :
  isTerminal (mkNode (H:=H) frag sc wc cc ∅ ns sl) = false.
Proof. unfold isTerminal. apply bool_decide_eq_false. simpl. set_solver. Qed.

Lemma setHandler_new method e slash names n :
  isTerminal n = false →
  setHandler method e slash names n
  = Ok (mkNode (path n) (staticChild n) (wildcardChild n) (catchAllChild n)
          (<[method := e]> (leafHandler n)) names slash).
Proof. intros Hn. unfold setHandler. by rewrite Hn. Qed.

Lemma search_childless frag lh ns sl p :
  search (mkNode (H:=H) frag [] None None lh ns sl) p
  = searchHere (mkNode frag [] None None lh ns sl) p.
Proof. rewrite search_eq. simpl. by destruct (searchHere _ _). Qed.

Lemma keyed_elem cs c :
  keyed cs = true → c ∈ cs → ∃ b, firstByte (path c) = Some b.
Proof.
  induction cs as [|c0 cs IH]; intros Hk Hin.
  - by apply elem_of_nil in Hin.
  - simpl in Hk. destruct (firstByte (path c0)) as [b0|] eqn:Hb0; [|done].
    apply andb_true_iff in Hk as [_ Hk].
    apply elem_of_cons in Hin as [->|Hin]; [by exists b0|by apply IH].
Qed.

Lemma searchStatic_other_key rec cs p b :
  keyed cs = true → firstByte p = Some b →
  (∀ c, In c cs → negb (startsWith b c) = true) →
  searchStatic rec cs p = None.
Proof.
  unfold searchStatic.
  induction cs as [|c0 cs IH]; intros Hk Hp Hothers; [done|].
  simpl in Hk. destruct (firstByte (path c0)) as [b0|] eqn:Hb0; [|done].
  apply andb_true_iff in Hk as [_ Hk]. simpl.
  destruct (stripPrefix (path c0) p) as [q|] eqn:Hq.
  - pose proof (stripPrefix_firstByte _ _ _ _ Hq Hb0) as Hp0.
    specialize (Hothers c0 (or_introl eq_refl)).
    apply negb_true_iff, bool_decide_eq_false in Hothers. congruence.
  - apply IH; [done..|]. intros c Hc. apply Hothers. by right.
Qed.

(** Among keyed siblings the child whose fragment is a prefix of the
    path is the only one, so its result is the result of the static
    branch. *)
Lemma searchStatic_keyed rec cs c p p' :
  keyed cs = true → c ∈ cs → stripPrefix (path c) p = Some p' →
  searchStatic rec cs p = rec c p'.
Proof.
  induction cs as [|c0 cs IH]; intros Hk Hin Hpre.
  - by apply elem_of_nil in Hin.
  - destruct (keyed_elem _ _ Hk Hin) as [b Hb].
    pose proof (stripPrefix_firstByte _ _ _ _ Hpre Hb) as Hp.
    pose proof Hk as Hk0.
    simpl in Hk. destruct (firstByte (path c0)) as [b0|] eqn:Hb0; [|done].
    apply andb_true_iff in Hk as [Hothers Hk].
    rewrite forallb_forall in Hothers.
    unfold searchStatic. simpl. fold (searchStatic rec cs p).
    destruct (stripPrefix (path c0) p) as [q|] eqn:Hq.
    + pose proof (stripPrefix_firstByte _ _ _ _ Hq Hb0) as Hp0.
      apply elem_of_cons in Hin as [->|Hin].
      * rewrite Hpre in Hq. injection Hq as ->.
        destruct (rec c0 q) eqn:Hrec; [done|].
        by apply (searchStatic_other_key rec cs p b0).
      * exfalso. apply list_elem_of_In in Hin. specialize (Hothers _ Hin).
        apply negb_true_iff, bool_decide_eq_false in Hothers. congruence.
    + apply elem_of_cons in Hin as [->|Hin]; [congruence|by apply IH].
Qed.

Lemma searchStatic_exhausted rec cs :
  keyed cs = true → searchStatic rec cs "" = None.
Proof.
  unfold searchStatic. induction cs as [|c cs IH]; [done|]. simpl.
  destruct (path c) as [|a s] eqn:Hp; [done|]. simpl.
  intros [_ Hk]%andb_true_iff. by apply IH.
Qed.

(** With nothing of the path left, only the node itself can match. *)
Lemma search_exhausted n :
  keyed (staticChild n) = true → search n "" = searchHere n "".
Proof.
  intros Hk. rewrite search_eq. rewrite searchStatic_exhausted by done.
  destruct (searchHere n ""); [done|].
  by destruct (wildcardChild n), (catchAllChild n).
Qed.

(** *** Induction on trees *)

Section NodeInduction.
Variable P : node H → Prop.
Hypothesis step : ∀ frag sc wc cc lh ns sl,
  Forall P sc → (∀ w, wc = Some w → P w) → (∀ c, cc = Some c → P c) →
  P (mkNode frag sc wc cc lh ns sl).

Lemma node_induction : ∀ n, P n.
Proof.
  fix IH 1. intros [frag sc wc cc lh ns sl]. apply step.
  - induction sc as [|c sc IHsc]; constructor; [apply IH|apply IHsc].
  - destruct wc as [w0|]; intros w Hw; [|discriminate Hw].
    injection Hw as <-. apply IH.
  - destruct cc as [c0|]; intros c Hc; [|discriminate Hc].
    injection Hc as <-. apply IH.
Qed.
End NodeInduction.

(** *** The insertion walk and the node it reaches *)

Lemma locate_eq n segs :
  locate n segs =
    let '(lit, rest) := litOf segs in
    match lit with
    | String b _ =>
        pickFirst (startsWith b) (locateChild locate lit rest) (staticChild n)
    | EmptyString =>
        match rest with
        | [] => Some n
        | Wildcard name :: rest' =>
            match wildcardChild n with
            | Some w => locate w rest'
            | None => None
            end
        | CatchAll name :: [] =>
            match catchAllChild n with
            | Some c => if bool_decide (path c = name) then Some c else None
            | None => None
            end
        | _ => None
        end
    end.
Proof. by destruct n. Qed.

Lemma locate_lit n segs lit rest b :
  litOf segs = (lit, rest) → firstByte lit = Some b →
  locate n segs
  = pickFirst (startsWith b) (locateChild locate lit rest) (staticChild n).
Proof.
  intros Hl Hb. rewrite locate_eq, Hl.
  destruct lit as [|b' lit]; [done|]. by injection Hb as ->.
Qed.

Lemma locate_litOf n segs1 segs2 :
  litOf segs1 = litOf segs2 → locate n segs1 = locate n segs2.
Proof. intros Hl. by rewrite !locate_eq, Hl. Qed.

Lemma locate_static_empty n segs :
  locate n (Static "" :: segs) = locate n segs.
Proof.
  apply locate_litOf. simpl. by destruct (litOf segs).
Qed.

Lemma pickFirst_none {B : Type} (sel : node H → bool)
    (f : node H → option B) cs :
  Forall (fun c => sel c = false) cs → pickFirst sel f cs = None.
Proof.
  induction 1 as [|c cs Hc _ IH]; [done|]. simpl. by rewrite Hc.
Qed.

Lemma pickFirst_last {B : Type} (sel : node H → bool)
    (f : node H → option B) cs c :
  Forall (fun c => sel c = false) cs → sel c = true →
  pickFirst sel f (cs ++ [c]) = f c.
Proof.
  induction 1 as [|c0 cs Hc _ IH]; intros Hsel; simpl.
  - by rewrite Hsel.
  - rewrite Hc. by apply IH.
Qed.

Lemma updateFirst_none (sel : node H → bool) (f : node H → result (node H)) cs :
  updateFirst sel f cs = None → Forall (fun c => sel c = false) cs.
Proof.
  induction cs as [|c cs IH]; [by constructor|]. simpl.
  destruct (sel c) eqn:Hc; [done|].
  destruct (updateFirst sel f cs); [done|]. intros _. constructor; auto.
Qed.

Section Walk.
Variable upd : list string → node H → result (node H).
Hypothesis upd_path : ∀ names n n', upd names n = Ok n' → path n' = path n.

Local Abbreviation reached := (reached upd).

Lemma insertAt_eq n segs names :
  insertAt upd n segs names =
    let '(lit, rest) := litOf segs in
    match lit with
    | String b _ =>
        match updateFirst (startsWith b)
                (insertChild upd (insertAt upd) lit rest names)
                (staticChild n) with
        | Some r =>
            let? sc' := r in
            Ok (mkNode (path n) sc' (wildcardChild n) (catchAllChild n)
                  (leafHandler n) (leafWildcardNames n) (addSlash n))
        | None => grow upd n lit rest names
        end
    | EmptyString =>
        match rest with
        | [] => upd names n
        | Wildcard name :: rest' =>
            match wildcardChild n with
            | Some w =>
                let? w' := insertAt upd w rest' (names ++ [name]) in
                Ok (mkNode (path n) (staticChild n) (Some w') (catchAllChild n)
                      (leafHandler n) (leafWildcardNames n) (addSlash n))
            | None => grow upd n "" rest names
            end
        | CatchAll name :: rest' =>
            match catchAllChild n with
            | Some c =>
                match rest' with
                | [] =>
                    if bool_decide (path c = name) then
                      let? c' := upd (names ++ [name]) c in
                      Ok (mkNode (path n) (staticChild n) (wildcardChild n)
                            (Some c') (leafHandler n) (leafWildcardNames n)
                            (addSlash n))
                    else Err CatchAllConflict
                | _ => Err CatchAllNotLast
                end
            | None => grow upd n "" rest names
            end
        | Static _ :: _ => grow upd n "" rest names
        end
    end.
Proof. by destruct n. Qed.

Lemma bindR_Ok {A B : Type} (r : result A) (k : A → result B) (b : B) :
  bindR r k = Ok b → ∃ a, r = Ok a ∧ k a = Ok b.
Proof. destruct r as [a|e]; [|done]. intros Hk. by exists a. Qed.

Lemma underNew_Ok n lit f n' :
  underNew n lit f = Ok n' →
  (lit = "" ∧ f n = Ok n')
  ∨ (lit ≠ "" ∧ ∃ c, f (emptyNode lit) = Ok c ∧ n' = addStatic c n).
Proof.
  destruct lit as [|a lit]; simpl; [by left|].
  intros (c & Hc & [= <-])%bindR_Ok. right. split; [done|]. by exists c.
Qed.

Lemma litOf_no_static (segs : list segment) lit l rest :
  litOf segs = (lit, Static l :: rest) → False.
Proof.
  revert lit. induction segs as [|[l0|name|name] segs IH]; intros lit; simpl.
  - done.
  - destruct (litOf segs) as [l' r'] eqn:Hl. intros [= _ ->]. by eapply IH.
  - done.
  - done.
Qed.

Lemma locate_emptyNode frag segs m :
  locate (emptyNode frag) segs = Some m → m = emptyNode (H:=H) frag.
Proof.
  rewrite locate_eq. destruct (litOf segs) as [lit rest].
  destruct lit as [|b lit]; [|done].
  destruct rest as [|[l|name|name] rest]; try done.
  - by intros [= <-].
  - by destruct rest.
Qed.

(** Below a new static child the walk goes on as in the child. *)
Lemma underNew_reached n lit f n' r :
  litOf r = ("", r) →
  (∀ b, firstByte lit = Some b →
        Forall (fun c => startsWith b c = false) (staticChild n)) →
  (∀ m m', f m = Ok m' → path m' = path m) →
  underNew n lit f = Ok n' →
  ∃ m m',
    f m = Ok m'
    ∧ locate n' (Static lit :: r) = locate m' r
    ∧ ((lit = "" ∧ m = n)
       ∨ (m = emptyNode lit ∧ locate n (Static lit :: r) = None)).
Proof.
  intros Hr Hfree Hpath [[-> Hf]|(Hlit & c & Hf & ->)]%underNew_Ok.
  - exists n, n'. split; [done|]. split; [apply locate_static_empty|by left].
  - exists (emptyNode lit), c. split; [done|].
    assert (litOf (Static lit :: r) = (lit, r)) as Hlr.
    { rewrite (litOf_static _ _ _ _ Hr). by rewrite append_empty_r. }
    assert (∃ b, firstByte lit = Some b) as [b Hb].
    { destruct lit as [|b l]; [done|]. by exists b. }
    specialize (Hfree b Hb).
    split; [|right; split; [done|]].
    + rewrite (locate_lit _ _ _ _ _ Hlr Hb).
      unfold addStatic. cbn [staticChild].
      rewrite pickFirst_last; [|done|].
      * unfold locateChild. rewrite (Hpath _ _ Hf). cbn [path emptyNode].
        rewrite <- (append_empty_r lit) at 2.
        rewrite splitCommon_prefix. apply locate_static_empty.
      * unfold startsWith. rewrite (Hpath _ _ Hf). cbn [path emptyNode].
        by apply bool_decide_eq_true.
    + rewrite (locate_lit _ _ _ _ _ Hlr Hb). by apply pickFirst_none.
Qed.

Lemma grow_path n lit rest names n' :
  grow upd n lit rest names = Ok n' → path n' = path n.
Proof.
  revert lit. induction rest as [|[l|name|name] rest IH]; intros lit; simpl.
  - intros [[_ Hf]|(_ & c & _ & ->)]%underNew_Ok; [by eapply upd_path|done].
  - apply IH.
  - intros [[_ Hf]|(_ & c & _ & ->)]%underNew_Ok; [|done].
    apply bindR_Ok in Hf as (w & _ & [= <-]). done.
  - intros [[_ Hf]|(_ & c & _ & ->)]%underNew_Ok; [|done].
    destruct rest; [|done].
    apply bindR_Ok in Hf as (w & _ & [= <-]). done.
Qed.

Lemma insertAt_path n segs names n' :
  insertAt upd n segs names = Ok n' → path n' = path n.
Proof.
  rewrite insertAt_eq. destruct (litOf segs) as [lit rest].
  destruct lit as [|b lit].
  - destruct rest as [|[l|name|name] rest].
    + apply upd_path.
    + apply grow_path.
    + destruct (wildcardChild n) as [w|]; [|apply grow_path].
      by intros (w' & _ & [= <-])%bindR_Ok.
    + destruct (catchAllChild n) as [c|]; [|apply grow_path].
      destruct rest; [|done]. case_bool_decide; [|done].
      by intros (c' & _ & [= <-])%bindR_Ok.
  - destruct (updateFirst _ _ _) as [r|]; [|apply grow_path].
    by intros (sc' & _ & [= <-])%bindR_Ok.
Qed.

(** What [grow] builds is reached by the pattern it was built for, and
    unless the pattern ends at [n] itself the updated node is new. *)
Lemma grow_reached rest : ∀ n lit names n' fl r,
  litOf (Static lit :: rest) = (fl, r) →
  (∀ b, firstByte fl = Some b →
        Forall (fun c => startsWith b c = false) (staticChild n)) →
  (fl = "" → ∀ name r', r = Wildcard name :: r' → wildcardChild n = None) →
  (fl = "" → ∀ name r', r = CatchAll name :: r' → catchAllChild n = None) →
  grow upd n lit rest names = Ok n' →
  ∃ names0 m0 m',
    upd names0 m0 = Ok m'
    ∧ locate n' (Static lit :: rest) = Some m'
    ∧ ((fl = "" ∧ r = [] ∧ m0 = n)
       ∨ (leafHandler m0 = ∅ ∧ locate n (Static lit :: rest) = None)).
Proof.
  induction rest as [|[l|name|name] rest IH];
    intros n lit names n' fl r Hlit Hfree Hwc Hcc Hgrow.
  - (* the pattern ends here *)
    simpl in Hlit. rewrite append_empty_r in Hlit. injection Hlit as <- <-.
    simpl in Hgrow.
    apply (underNew_reached _ _ _ _ []) in Hgrow
      as (m & m' & Hf & Hloc & Hm); [|done|done|apply upd_path].
    exists names, m, m'. split; [done|]. split.
    + rewrite Hloc. by rewrite locate_eq.
    + destruct Hm as [[-> ->]|[-> Hnone]]; [by left|by right].
  - (* more literal text *)
    simpl in Hgrow.
    assert (litOf (Static (lit +:+ l) :: rest) = (fl, r)) as Hlit'.
    { simpl in *. destruct (litOf rest) as [l' r'].
      by rewrite append_assoc. }
    destruct (IH _ _ _ _ _ _ Hlit' Hfree Hwc Hcc Hgrow)
      as (names0 & m0 & m' & Hupd & Hloc & Hm).
    assert (∀ k : node H, locate k (Static lit :: Static l :: rest)
                 = locate k (Static (lit +:+ l) :: rest)) as Heq.
    { intros k. apply locate_litOf. by rewrite Hlit, Hlit'. }
    exists names0, m0, m'. rewrite !Heq. done.
  - (* a wildcard *)
    simpl in Hlit. rewrite append_empty_r in Hlit. injection Hlit as <- <-.
    simpl in Hgrow.
    apply (underNew_reached _ _ _ _ (Wildcard name :: rest)) in Hgrow
      as (m & m' & Hf & Hloc & Hm); [|done|done|].
    2:{ intros k k' (w & _ & [= <-])%bindR_Ok. done. }
    apply bindR_Ok in Hf as (w & Hw & [= <-]).
    destruct (litOf (Static "" :: rest)) as [fl' r'] eqn:Hlit'.
    apply (IH _ _ _ _ _ _ Hlit') in Hw
      as (names0 & m0 & m0' & Hupd & Hlocw & Hm0); [|by constructor|done..].
    exists names0, m0, m0'. split; [done|]. split.
    + rewrite Hloc, locate_eq. cbn [litOf wildcardChild setWildcard].
      by rewrite <- locate_static_empty.
    + right. split.
      * destruct Hm0 as [(_ & _ & ->)|[? _]]; done.
      * destruct Hm as [[-> ->]|[_ Hnone]]; [|done].
        rewrite locate_static_empty, locate_eq. cbn [litOf].
        by rewrite (Hwc eq_refl name rest eq_refl).
  - (* a catch-all *)
    simpl in Hlit. rewrite append_empty_r in Hlit. injection Hlit as <- <-.
    simpl in Hgrow.
    apply (underNew_reached _ _ _ _ (CatchAll name :: rest)) in Hgrow
      as (m & m' & Hf & Hloc & Hm); [|done|done|].
    2:{ intros k k'. destruct rest; [|done].
        intros (c & _ & [= <-])%bindR_Ok. done. }
    destruct rest as [|s0 rest]; [|done].
    apply bindR_Ok in Hf as (c & Hc & [= <-]).
    exists (names ++ [name]), (emptyNode name), c. split; [done|]. split.
    + rewrite Hloc, locate_eq. cbn [litOf catchAllChild setCatchAll].
      rewrite (upd_path _ _ _ Hc). cbn [path emptyNode].
      by rewrite bool_decide_eq_true_2.
    + right. split; [done|].
      destruct Hm as [[-> ->]|[_ Hnone]]; [|done].
      rewrite locate_static_empty, locate_eq. cbn [litOf].
      by rewrite (Hcc eq_refl name [] eq_refl).
Qed.

Lemma litOf_resume_lit (segs : list segment) lit rest :
  litOf segs = (lit, rest) → litOf (Static lit :: rest) = (lit, rest).
Proof. apply litOf_resume. Qed.

(** The static step of the walk, along the list of children. *)
Lemma updateFirst_reached lit rest names b cs cs' :
  litOf rest = ("", rest) → firstByte lit = Some b →
  Forall (fun c => ∀ segs names c',
            insertAt upd c segs names = Ok c' → reached c c' segs) cs →
  updateFirst (startsWith b) (insertChild upd (insertAt upd) lit rest names) cs
  = Some (Ok cs') →
  ∃ names0 m0 m',
    upd names0 m0 = Ok m'
    ∧ pickFirst (startsWith b) (locateChild locate lit rest) cs' = Some m'
    ∧ match pickFirst (startsWith b) (locateChild locate lit rest) cs with
      | Some m => m0 = m
      | None => leafHandler m0 = ∅
      end.
Proof.
  intros Hrest Hb HP. revert cs'.
  induction HP as [|c cs Hc _ IH]; intros cs'; [done|]. simpl.
  destruct (startsWith b c) eqn:Hsel.
  - intros [= Hins]. apply bindR_Ok in Hins as (c' & Hins & [= <-]).
    unfold insertChild in Hins.
    destruct (splitCommon (path c) lit) as [[common fr] lr] eqn:Hs.
    pose proof (splitCommon_spec _ _ _ _ _ Hs) as (Hfrag & Hlit & Hne).
    assert (litOf (Static lr :: rest) = (lr, rest)) as Hlr.
    { rewrite (litOf_static _ _ _ _ Hrest). by rewrite append_empty_r. }
    destruct fr as [|a fr'] eqn:Hfr.
    + (* the whole fragment is shared: descend *)
      pose proof (insertAt_path _ _ _ _ Hins) as Hpath.
      apply Hc in Hins as (names0 & m0 & m' & Hupd & Hloc & Hm).
      exists names0, m0, m'. split; [done|]. simpl.
      unfold startsWith in *. rewrite Hpath, Hsel.
      unfold locateChild. rewrite Hpath, Hs. done.
    + (* split the child *)
      rewrite <- Hfr in *.
      pose proof (grow_path _ _ _ _ _ Hins) as Hpath.
      cbn [path splitNode] in Hpath.
      apply (grow_reached _ _ _ _ _ _ _ Hlr) in Hins
        as (names0 & m0 & m' & Hupd & Hloc & Hm); [| |done..].
      2:{ intros b' Hb'. repeat constructor.
          unfold startsWith, setPath. cbn [path].
          apply bool_decide_eq_false. rewrite Hfr. simpl. intros [= ->].
          rewrite Hfr in Hne. by eapply Hne. }
      exists names0, m0, m'. split; [done|].
      apply bool_decide_eq_true in Hsel.
      pose proof (splitCommon_firstByte _ _ _ _ _ _ Hs Hsel Hb) as Hcb.
      split.
      * simpl. unfold startsWith. rewrite Hpath, bool_decide_eq_true_2 by done.
        unfold locateChild. rewrite Hpath. rewrite Hlit at 1.
        by rewrite splitCommon_prefix.
      * unfold locateChild at 1. rewrite Hs, Hfr.
        destruct Hm as [(_ & _ & ->)|[? _]]; done.
  - destruct (updateFirst _ _ cs) as [r|] eqn:Hu; [|done].
    intros [= Hr]. apply bindR_Ok in Hr as (cs'' & -> & [= <-]).
    destruct (IH _ eq_refl) as (names0 & m0 & m' & Hupd & Hloc & Hm).
    exists names0, m0, m'. split; [done|]. simpl. by rewrite Hsel.
Qed.

(** The walk applies [upd] to the node the pattern reaches. *)
Lemma insertAt_reached n : ∀ segs names n',
  insertAt upd n segs names = Ok n' → reached n n' segs.
Proof.
  induction n as [frag sc wc cc lh ns sl IHsc IHwc _] using node_induction.
  intros segs names n'. rewrite insertAt_eq.
  destruct (litOf segs) as [lit rest] eqn:Hlit.
  pose proof (litOf_rest _ _ _ Hlit) as Hrest.
  assert (∀ k : node H, locate k (Static lit :: rest) = locate k segs) as Hseg.
  { intros k. apply locate_litOf.
    by rewrite Hlit, (litOf_resume_lit _ _ _ Hlit). }
  cbn [path staticChild wildcardChild catchAllChild leafHandler
       leafWildcardNames addSlash].
  set (n := mkNode frag sc wc cc lh ns sl).
  destruct lit as [|b l].
  - destruct rest as [|[l|name|name] rest'].
    + (* the pattern ends at this node *)
      intros Hupd. exists names, n, n'. split; [done|].
      rewrite !locate_eq, Hlit. done.
    + by apply litOf_no_static in Hlit.
    + destruct wc as [w|].
      * intros (w' & Hw & [= <-])%bindR_Ok.
        apply (IHwc w eq_refl) in Hw as (names0 & m0 & m' & Hupd & Hloc & Hm).
        exists names0, m0, m'. split; [done|]. rewrite !locate_eq, Hlit. done.
      * intros Hgrow.
        apply (grow_reached _ _ _ _ _ _ _ (litOf_resume_lit _ _ _ Hlit))
          in Hgrow as (names0 & m0 & m' & Hupd & Hloc & Hm); [|done..].
        exists names0, m0, m'. rewrite <- !Hseg. split; [done|]. split; [done|].
        destruct Hm as [(_ & [=] & _)|[? ->]]; done.
    + destruct cc as [c|].
      * destruct rest' as [|s0 rest']; [|done].
        case_bool_decide as Hname; [|done].
        intros (c' & Hc & [= <-])%bindR_Ok.
        exists (names ++ [name]), c, c'. split; [done|].
        rewrite !locate_eq, Hlit. unfold n. cbn [catchAllChild].
        rewrite (upd_path _ _ _ Hc), !bool_decide_eq_true_2 by done. done.
      * intros Hgrow.
        apply (grow_reached _ _ _ _ _ _ _ (litOf_resume_lit _ _ _ Hlit))
          in Hgrow as (names0 & m0 & m' & Hupd & Hloc & Hm); [|done..].
        exists names0, m0, m'. rewrite <- !Hseg. split; [done|]. split; [done|].
        destruct Hm as [(_ & [=] & _)|[? ->]]; done.
  - destruct (updateFirst _ _ _) as [r|] eqn:Hu.
    + intros (sc' & -> & [= <-])%bindR_Ok.
      apply updateFirst_reached in Hu
        as (names0 & m0 & m' & Hupd & Hloc & Hm); [|done..].
      exists names0, m0, m'. split; [done|].
      rewrite !(locate_lit _ _ _ _ b Hlit) by done. done.
    + intros Hgrow. apply updateFirst_none in Hu.
      apply (grow_reached _ _ _ _ _ _ _ (litOf_resume_lit _ _ _ Hlit))
        in Hgrow as (names0 & m0 & m' & Hupd & Hloc & Hm); [| |done..].
      2:{ by intros b' [= <-]. }
      exists names0, m0, m'. rewrite <- !Hseg. split; [done|]. split; [done|].
      destruct Hm as [([=] & _)|[? ->]]; done.
Qed.
End Walk.

(** *** Every match follows a pattern of the tree *)

Lemma stripPrefix_Some (pre p rest : string) :
  stripPrefix pre p = Some rest → p = pre +:+ rest.
Proof.
  revert p. induction pre as [|a pre IH]; intros p; simpl.
  - by intros [= ->].
  - destruct p as [|b p]; [done|].
    destruct (Ascii.eqb a b) eqn:Hab; [|done].
    apply Ascii.eqb_eq in Hab as ->. intros ->%IH. by rewrite append_cons.
Qed.

Lemma splitToken_spec (p tok rest : string) :
  splitToken p = (tok, rest) →
  p = tok +:+ rest ∧ IndexByte tok "/" = None
  ∧ (rest = "" ∨ firstByte rest = Some "/"%char).
Proof.
  revert tok rest. induction p as [|c p IH]; intros tok rest; simpl.
  - intros [= <- <-]. by auto.
  - destruct (Ascii.eqb c "/") eqn:Hc.
    + apply Ascii.eqb_eq in Hc as ->. intros [= <- <-]. by auto.
    + destruct (splitToken p) as [tok' rest'] eqn:Hs. intros [= <- <-].
      destruct (IH _ _ eq_refl) as (-> & Hidx & Hrest).
      rewrite append_cons. simpl. by rewrite Hc, Hidx.
Qed.

Lemma firstSome_Some {A B : Type} (f : A → option B) (l : list A) (r : B) :
  firstSome f l = Some r → ∃ x, x ∈ l ∧ f x = Some r.
Proof.
  induction l as [|x l IH]; [done|]. simpl.
  destruct (f x) as [r'|] eqn:Hx.
  - intros [= ->]. exists x. split; [apply list_elem_of_here|done].
  - intros (y & Hin & Hy)%IH. exists y.
    split; [by apply list_elem_of_further|done].
Qed.

Lemma orElse_Some {A : Type} (a b : option A) (r : A) :
  orElse a b = Some r → a = Some r ∨ (a = None ∧ b = Some r).
Proof. destruct a; simpl; [by left|by right]. Qed.

(** Whatever the matcher returns, the path matches the pattern that
    leads to the returned node, with the returned values. *)
Lemma search_sound n : ∀ p m vals,
  search n p = Some (m, vals) → ∃ segs, Trace n segs m ∧ Matches segs p vals.
Proof.
  induction n as [frag sc wc cc lh ns sl IHsc IHwc _] using node_induction.
  intros p m vals. rewrite search_eq.
  cbn [staticChild wildcardChild catchAllChild].
  set (n := mkNode frag sc wc cc lh ns sl).
  intros [Hhere|[_ [Hst|[_ [Hw|[_ Hcc]]%orElse_Some]]%orElse_Some]]%orElse_Some.
  - (* the node itself *)
    unfold searchHere in Hhere. destruct p; [|done].
    destruct (isTerminal n); [|done]. injection Hhere as <- <-.
    exists []. split; constructor.
  - (* a static child *)
    apply firstSome_Some in Hst as (c & Hin & Hc).
    destruct (stripPrefix (path c) p) as [p'|] eqn:Hp; [|done].
    apply stripPrefix_Some in Hp as ->.
    rewrite Forall_forall in IHsc.
    destruct (IHsc c Hin _ _ _ Hc) as (segs & Htr & Hm).
    exists (Static (path c) :: segs).
    split; [exact (TraceStatic n c segs m Hin Htr)|by constructor].
  - (* the wildcard child *)
    unfold searchWildcard in Hw. destruct wc as [w|]; [|done].
    destruct (splitToken p) as [tok p'] eqn:Hs.
    destruct (splitToken_spec _ _ _ Hs) as (-> & Hidx & Hrest).
    destruct tok as [|a tok'] eqn:Htok; [done|]. rewrite <- Htok in *.
    destruct (search w p') as [[found vals']|] eqn:Hsw; [|done].
    injection Hw as <- <-.
    destruct (IHwc w eq_refl _ _ _ Hsw) as (segs & Htr & Hm).
    exists (Wildcard "" :: segs).
    split; [exact (TraceWildcard n w "" segs found eq_refl Htr)|].
    constructor; [by rewrite Htok|done..].
  - (* the catch-all child *)
    unfold searchCatchAll in Hcc. destruct cc as [c|]; [|done].
    destruct p as [|a p'] eqn:Hp; [done|]. rewrite <- Hp in *.
    destruct (isTerminal c); [|done]. injection Hcc as <- <-.
    exists [CatchAll (path c)].
    split; [exact (TraceCatchAll n c eq_refl)|].
    constructor. by rewrite Hp.
Qed.
End RouterProps.

(** A pattern that ends with a catch-all only matches paths that leave
    the catch-all a non-empty remainder. *)
Lemma Matches_catch_all (pre : list segment) : ∀ name p vals,
  Matches (pre ++ [CatchAll name]) p vals →
  ∃ q rem vals',
    p = q +:+ rem ∧ rem ≠ "" ∧ Matches pre q vals'
    ∧ vals = vals' ++ [UnescapeParam rem].
Proof.
  induction pre as [|s pre IH]; intros name p vals Hm.
  - inversion Hm as [| | |name' p' Hp]; subst.
    exists "", p, []. repeat split; try done. constructor.
  - inversion Hm as [|lit segs p0 vals0 Hm0|nm segs tok p0 vals0 Htok Hidx Hp0 Hm0
                     |name' p' Hp]; subst.
    + destruct (IH _ _ _ Hm0) as (q & rem & vals' & -> & Hrem & Hq & ->).
      exists (lit +:+ q), rem, vals'.
      rewrite append_assoc. repeat split; try done. by constructor.
    + destruct (IH _ _ _ Hm0) as (q & rem & vals' & -> & Hrem & Hq & ->).
      exists (tok +:+ q), rem, (UnescapeParam tok :: vals').
      rewrite append_assoc. repeat split; try done.
      constructor; try done.
      destruct q as [|a q']; [by left|right].
      rewrite append_cons in Hp0. by destruct Hp0.
    + by destruct pre.
Qed.

Section RouterProps2.
Context {H : Type}.
Implicit Types (n c w t : node H) (p : string) (cs : list (node H)).

(** *** Insertion keeps static children keyed *)

Lemma wellKeyed_eq n :
  wellKeyed n
  = keyed (staticChild n) && forallb wellKeyed (staticChild n)
    && from_option wellKeyed true (wildcardChild n)
    && from_option wellKeyed true (catchAllChild n).
Proof. by destruct n. Qed.

Lemma wellKeyed_parts n :
  wellKeyed n = true ↔
    keyed (staticChild n) = true
    ∧ forallb wellKeyed (staticChild n) = true
    ∧ from_option wellKeyed true (wildcardChild n) = true
    ∧ from_option wellKeyed true (catchAllChild n) = true.
Proof. rewrite wellKeyed_eq, !andb_true_iff. tauto. Qed.

Lemma wellKeyed_setPath frag c : wellKeyed (setPath frag c) = wellKeyed c.
Proof. by rewrite !wellKeyed_eq. Qed.

Lemma wellKeyed_splitNode common fr c :
  fr ≠ "" → wellKeyed c = true → wellKeyed (splitNode common fr c) = true.
Proof.
  intros Hfr Hc. rewrite wellKeyed_eq. unfold splitNode.
  cbn [staticChild wildcardChild catchAllChild forallb from_option].
  rewrite wellKeyed_setPath, Hc. unfold keyed, setPath. cbn [path].
  by destruct fr.
Qed.

Lemma startsWith_firstByte b c c' :
  firstByte (path c') = firstByte (path c) → startsWith b c' = startsWith b c.
Proof. unfold startsWith. by intros ->. Qed.

Lemma keyed_replace pre c c' post :
  firstByte (path c') = firstByte (path c) →
  keyed (pre ++ c' :: post) = keyed (pre ++ c :: post).
Proof.
  intros Hb. induction pre as [|c0 pre IH]; simpl.
  - by rewrite Hb.
  - destruct (firstByte (path c0)) as [b0|]; [|done].
    rewrite IH. f_equal. rewrite !forallb_app. simpl.
    by rewrite (startsWith_firstByte b0 c c').
Qed.

Lemma keyed_snoc cs c b :
  keyed cs = true → firstByte (path c) = Some b →
  Forall (fun c' => startsWith b c' = false) cs →
  keyed (cs ++ [c]) = true.
Proof.
  intros Hk Hb Hfree. induction Hfree as [|c0 cs Hc0 _ IH]; simpl.
  - by rewrite Hb.
  - simpl in Hk. destruct (firstByte (path c0)) as [b0|] eqn:Hb0; [|done].
    apply andb_true_iff in Hk as [Hothers Hk].
    rewrite forallb_app, Hothers, IH by done. simpl.
    unfold startsWith in *. rewrite Hb.
    apply bool_decide_eq_false in Hc0.
    rewrite bool_decide_eq_false_2; [done|]. congruence.
Qed.

Lemma updateFirst_Ok (sel : node H → bool) (f : node H → result (node H))
    cs cs' :
  updateFirst sel f cs = Some (Ok cs') →
  ∃ pre c c' post,
    cs = pre ++ c :: post ∧ cs' = pre ++ c' :: post
    ∧ sel c = true ∧ f c = Ok c'.
Proof.
  revert cs'. induction cs as [|c0 cs IH]; intros cs'; [done|]. simpl.
  destruct (sel c0) eqn:Hsel.
  - intros [= Hf]. apply bindR_Ok in Hf as (c' & Hf & [= <-]).
    by exists [], c0, c', cs.
  - destruct (updateFirst sel f cs) as [r|]; [|done].
    intros [= Hr]. apply bindR_Ok in Hr as (cs'' & -> & [= <-]).
    destruct (IH _ eq_refl) as (pre & c & c' & post & -> & -> & Hc & Hf).
    by exists (c0 :: pre), c, c', post.
Qed.

Section Shape.
Variable upd : list string → node H → result (node H).
Hypothesis upd_shape : ∀ names n n',
  upd names n = Ok n' →
  path n' = path n ∧ staticChild n' = staticChild n
  ∧ wildcardChild n' = wildcardChild n ∧ catchAllChild n' = catchAllChild n.

Lemma upd_shape_path names n n' : upd names n = Ok n' → path n' = path n.
Proof. by intros (? & _)%upd_shape. Qed.

Lemma upd_wellKeyed names n n' :
  upd names n = Ok n' → wellKeyed n' = wellKeyed n.
Proof.
  intros (_ & Hs & Hw & Hc)%upd_shape. by rewrite !wellKeyed_eq, Hs, Hw, Hc.
Qed.

Lemma underNew_wellKeyed n lit f n' :
  (∀ b, firstByte lit = Some b →
        Forall (fun c => startsWith b c = false) (staticChild n)) →
  (∀ m m', wellKeyed m = true → f m = Ok m' →
           wellKeyed m' = true ∧ path m' = path m) →
  wellKeyed n = true → underNew n lit f = Ok n' → wellKeyed n' = true.
Proof.
  intros Hfree Hf Hn [[-> Hfn]|(Hlit & c & Hc & ->)]%underNew_Ok.
  - by apply (Hf _ _ Hn Hfn).
  - destruct (Hf (emptyNode lit) c eq_refl Hc) as [Hwc Hpath].
    assert (∃ b, firstByte lit = Some b) as [b Hb].
    { destruct lit as [|b l]; [done|]. by exists b. }
    apply wellKeyed_parts in Hn as (Hk & Hall & Hw & Hcc).
    apply wellKeyed_parts. unfold addStatic. simpl.
    split; [|split; [|done]].
    + apply (keyed_snoc _ _ b); [done| |by apply Hfree].
      by rewrite Hpath.
    + rewrite forallb_app, Hall. simpl. by rewrite Hwc.
Qed.

Lemma grow_wellKeyed rest : ∀ n lit names n' fl r,
  litOf (Static lit :: rest) = (fl, r) →
  (∀ b, firstByte fl = Some b →
        Forall (fun c => startsWith b c = false) (staticChild n)) →
  wellKeyed n = true →
  grow upd n lit rest names = Ok n' → wellKeyed n' = true.
Proof.
  induction rest as [|[l|name|name] rest IH];
    intros n lit names n' fl r Hlit Hfree Hn Hgrow; simpl in Hgrow.
  - simpl in Hlit. rewrite append_empty_r in Hlit. injection Hlit as <- <-.
    eapply underNew_wellKeyed; [done| |done..].
    intros m m' Hm Hupd. rewrite (upd_wellKeyed _ _ _ Hupd).
    split; [done|by eapply upd_shape_path].
  - eapply (IH _ (lit +:+ l)); [|done..].
    simpl in *. destruct (litOf rest) as [l' r'].
    by rewrite append_assoc.
  - simpl in Hlit. rewrite append_empty_r in Hlit. injection Hlit as <- <-.
    eapply underNew_wellKeyed; [done| |done..].
    intros m m' Hm (w & Hw & [= <-])%bindR_Ok. split; [|done].
    destruct (litOf (Static "" :: rest)) as [fl' r'] eqn:Hlit'.
    apply (IH _ _ _ _ _ _ Hlit') in Hw; [|by constructor|done].
    apply wellKeyed_parts in Hm as (Hk & Hall & _ & Hcc).
    apply wellKeyed_parts. by unfold setWildcard.
  - simpl in Hlit. rewrite append_empty_r in Hlit. injection Hlit as <- <-.
    eapply underNew_wellKeyed; [done| |done..].
    intros m m' Hm Hf. destruct rest; [|done].
    apply bindR_Ok in Hf as (c & Hc & [= <-]). split; [|done].
    apply wellKeyed_parts in Hm as (Hk & Hall & Hw & _).
    apply wellKeyed_parts. unfold setCatchAll. simpl.
    by rewrite (upd_wellKeyed _ _ _ Hc).
Qed.

Lemma insertAt_wellKeyed n : ∀ segs names n',
  wellKeyed n = true → insertAt upd n segs names = Ok n' →
  wellKeyed n' = true.
Proof.
  induction n as [frag sc wc cc lh ns sl IHsc IHwc _] using node_induction.
  intros segs names n' Hn. rewrite insertAt_eq.
  destruct (litOf segs) as [lit rest] eqn:Hlit.
  pose proof (litOf_resume_lit _ _ _ Hlit) as Hres.
  pose proof Hn as Hparts.
  apply wellKeyed_parts in Hparts as (Hk & Hall & Hw & Hcc).
  cbn [path staticChild wildcardChild catchAllChild leafHandler
       leafWildcardNames addSlash] in *.
  destruct lit as [|b l].
  - destruct rest as [|[l|name|name] rest'].
    + intros Hupd. by rewrite (upd_wellKeyed _ _ _ Hupd).
    + by apply litOf_no_static in Hlit.
    + destruct wc as [w|].
      * intros (w' & Hw' & [= <-])%bindR_Ok.
        apply wellKeyed_parts. simpl. repeat split; try done.
        by eapply (IHwc w eq_refl).
      * by apply (grow_wellKeyed _ _ _ _ _ _ _ Hres).
    + destruct cc as [c|].
      * destruct rest' as [|s0 rest']; [|done].
        case_bool_decide; [|done].
        intros (c' & Hc & [= <-])%bindR_Ok.
        apply wellKeyed_parts. simpl. repeat split; try done.
        by rewrite (upd_wellKeyed _ _ _ Hc).
      * by apply (grow_wellKeyed _ _ _ _ _ _ _ Hres).
  - destruct (updateFirst _ _ _) as [r|] eqn:Hu.
    + intros (sc' & -> & [= <-])%bindR_Ok.
      apply updateFirst_Ok in Hu
        as (pre & c & c' & post & -> & -> & Hsel & Hins).
      apply bool_decide_eq_true in Hsel.
      rewrite forallb_app in Hall. simpl in Hall.
      apply andb_true_iff in Hall as [Hpre [Hc Hpost]%andb_true_iff].
      assert (wellKeyed c' = true ∧ firstByte (path c') = firstByte (path c))
        as [Hc' Hb'].
      { unfold insertChild in Hins.
        destruct (splitCommon (path c) (String b l)) as [[common fr] lr] eqn:Hs.
        pose proof (splitCommon_spec _ _ _ _ _ Hs) as (Hfrag & Hlr & Hne).
        destruct fr as [|a fr'] eqn:Hfr.
        - split.
          + apply Forall_app in IHsc as [_ [IHc _]%Forall_cons].
            by eapply IHc.
          + by rewrite (insertAt_path _ upd_shape_path _ _ _ _ Hins).
        - rewrite <- Hfr in *. split.
          + assert (litOf (Static lr :: rest) = (lr, rest)) as Hlit'.
            { by eapply litOf_resume. }
            apply (grow_wellKeyed _ _ _ _ _ _ _ Hlit') in Hins; [done| |].
            * intros b' Hb'. repeat constructor.
              unfold startsWith, setPath. cbn [path].
              apply bool_decide_eq_false. rewrite Hfr. simpl. intros [= ->].
              rewrite Hfr in Hne. by eapply Hne.
            * apply wellKeyed_splitNode; [by rewrite Hfr|done].
          + rewrite (grow_path _ upd_shape_path _ _ _ _ _ Hins).
            cbn [path splitNode].
            rewrite (splitCommon_firstByte _ _ _ _ _ b Hs); done. }
      apply wellKeyed_parts. simpl. repeat split; try done.
      * by rewrite (keyed_replace pre c c' post).
      * rewrite forallb_app. simpl. by rewrite Hpre, Hc', Hpost.
    + intros Hgrow. apply updateFirst_none in Hu.
      apply (grow_wellKeyed _ _ _ _ _ _ _ Hres) in Hgrow; [done| |done].
      by intros b' [= <-].
Qed.
End Shape.

Lemma setHandler_shape method e slash names n n' :
  setHandler method e slash names n = Ok n' →
  path n' = path n ∧ staticChild n' = staticChild n
  ∧ wildcardChild n' = wildcardChild n ∧ catchAllChild n' = catchAllChild n.
Proof.
  unfold setHandler. repeat case_match; try done; by intros [= <-].
Qed.

Lemma Insert_wellKeyed t method pattern h t' :
  wellKeyed t = true → Insert t method pattern h = Ok t' →
  wellKeyed t' = true.
Proof.
  unfold Insert. destruct (trailingSlash pattern) as [slash p0].
  apply insertAt_wellKeyed. intros names k k'. apply setHandler_shape.
Qed.

(** Every tree built by registrations from the empty tree has keyed
    static children at every node. *)
Lemma InsertAll_wellKeyed routes : ∀ t t',
  wellKeyed t = true → InsertAll t routes = Ok t' → wellKeyed t' = true.
Proof.
  induction routes as [|[[method pattern] h] routes IH]; intros t t' Ht; simpl.
  - by intros [= <-].
  - intros (t1 & Ht1 & Hrest)%bindR_Ok.
    eapply IH; [|done]. by eapply Insert_wellKeyed.
Qed.

(** *** Insertion keeps every registered route *)

Lemma extends_refl n : extends n n.
Proof. by split. Qed.

Lemma extends_terminal n n' :
  extends n n' → isTerminal n = true → isTerminal n' = true.
Proof.
  intros [He _] Hn. apply isTerminal_leafHandler in Hn.
  apply isTerminal_leafHandler. intros Hempty. apply Hn.
  apply map_eq. intros method. rewrite lookup_empty.
  destruct (leafHandler n !! method) as [e|] eqn:Hm; [|done].
  apply He in Hm. by rewrite Hempty, lookup_empty in Hm.
Qed.

Lemma extends_trans n1 n2 n3 :
  extends n1 n2 → extends n2 n3 → extends n1 n3.
Proof.
  intros H12 H23. pose proof (extends_terminal _ _ H12) as Ht.
  destruct H12 as [He1 Hf1], H23 as [He2 Hf2]. split; [by auto|].
  intros Hn1. destruct (Hf1 Hn1) as [Ha Hb].
  destruct (Hf2 (Ht Hn1)) as [Ha' Hb']. split; congruence.
Qed.

Lemma extends_same_leaf n n' :
  leafHandler n' = leafHandler n → addSlash n' = addSlash n →
  leafWildcardNames n' = leafWildcardNames n → extends n n'.
Proof. intros Hl Hs Hw. split; [by rewrite Hl|done]. Qed.

Lemma locate_root n segs :
  litOf segs = ("", []) → locate n segs = Some n.
Proof. intros Hl. by rewrite locate_eq, Hl. Qed.

(** Apart from the pattern that ends at the node itself, what a
    pattern reaches only depends on the children. *)
Lemma locate_below n1 n2 segs n0 :
  staticChild n2 = staticChild n1 → wildcardChild n2 = wildcardChild n1 →
  catchAllChild n2 = catchAllChild n1 →
  locate n1 segs = Some n0 →
  (litOf segs = ("", []) ∧ n0 = n1) ∨ locate n2 segs = Some n0.
Proof.
  intros Hs Hw Hc. rewrite !locate_eq, Hs, Hw, Hc.
  destruct (litOf segs) as [lit rest].
  destruct lit as [|b l]; [|by right].
  destruct rest as [|[l|name|name] rest]; [|by right..].
  intros [= <-]. by left.
Qed.

Lemma locate_same_children n1 n2 segs n0 :
  staticChild n2 = staticChild n1 → wildcardChild n2 = wildcardChild n1 →
  catchAllChild n2 = catchAllChild n1 → extends n1 n2 →
  locate n1 segs = Some n0 →
  ∃ n0', locate n2 segs = Some n0' ∧ extends n0 n0'.
Proof.
  intros Hs Hw Hc Hext Hloc.
  destruct (locate_below _ n2 _ _ Hs Hw Hc Hloc) as [[Hl ->]|Hloc'].
  - exists n2. by rewrite (locate_root _ _ Hl).
  - exists n0. split; [done|apply extends_refl].
Qed.

Lemma pickFirst_app_Some {B : Type} (sel : node H → bool)
    (f : node H → option B) cs l x :
  pickFirst sel f cs = Some x → pickFirst sel f (cs ++ l) = Some x.
Proof.
  induction cs as [|c cs IH]; [done|]. simpl. by destruct (sel c).
Qed.

Lemma pickFirst_replace {B : Type} (R : B → B → Prop) (sel : node H → bool)
    (f : node H → option B) pre c c' post x :
  (∀ y, R y y) → sel c' = sel c →
  (sel c = true → f c = Some x → ∃ x', f c' = Some x' ∧ R x x') →
  pickFirst sel f (pre ++ c :: post) = Some x →
  ∃ x', pickFirst sel f (pre ++ c' :: post) = Some x' ∧ R x x'.
Proof.
  intros HR Hsel Hf. induction pre as [|c0 pre IH]; simpl.
  - rewrite Hsel. destruct (sel c) eqn:Hc; [by auto|]. intros Hx. by exists x.
  - destruct (sel c0); [|done]. intros Hx. by exists x.
Qed.

Lemma locate_setPath frag c segs n0 :
  locate c segs = Some n0 →
  ∃ n0', locate (setPath frag c) segs = Some n0' ∧ extends n0 n0'.
Proof.
  apply locate_same_children; try done; by apply extends_same_leaf.
Qed.

Lemma locate_addStatic c n segs n0 :
  locate n segs = Some n0 →
  ∃ n0', locate (addStatic c n) segs = Some n0' ∧ extends n0 n0'.
Proof.
  rewrite !locate_eq. destruct (litOf segs) as [lit rest].
  destruct lit as [|b l].
  - destruct rest as [|[l|name|name] rest]; try done.
    + intros [= <-]. eexists. split; [done|]. by apply extends_same_leaf.
    + intros Hloc. exists n0. split; [done|apply extends_refl].
    + intros Hloc. exists n0. split; [done|apply extends_refl].
  - intros Hloc. exists n0. split; [|apply extends_refl].
    unfold addStatic. cbn [staticChild]. by apply pickFirst_app_Some.
Qed.

Lemma locate_setWildcard w n segs n0 :
  wildcardChild n = None → locate n segs = Some n0 →
  ∃ n0', locate (setWildcard w n) segs = Some n0' ∧ extends n0 n0'.
Proof.
  intros Hw. rewrite !locate_eq, Hw. destruct (litOf segs) as [lit rest].
  destruct lit as [|b l].
  - destruct rest as [|[l|name|name] rest]; try done.
    + intros [= <-]. eexists. split; [done|]. by apply extends_same_leaf.
    + intros Hloc. exists n0. split; [done|apply extends_refl].
  - intros Hloc. exists n0. split; [done|apply extends_refl].
Qed.

Lemma locate_setCatchAll c n segs n0 :
  catchAllChild n = None → locate n segs = Some n0 →
  ∃ n0', locate (setCatchAll c n) segs = Some n0' ∧ extends n0 n0'.
Proof.
  intros Hc. rewrite !locate_eq, Hc. destruct (litOf segs) as [lit rest].
  destruct lit as [|b l].
  - destruct rest as [|[l|name|name] rest]; try done.
    + intros [= <-]. eexists. split; [done|]. by apply extends_same_leaf.
    + intros Hloc. exists n0. split; [done|apply extends_refl].
    + by destruct rest.
  - intros Hloc. exists n0. split; [done|apply extends_refl].
Qed.

Lemma updateFirst_Ok_first (sel : node H → bool)
    (f : node H → result (node H)) cs cs' :
  updateFirst sel f cs = Some (Ok cs') →
  ∃ pre c c' post,
    cs = pre ++ c :: post ∧ cs' = pre ++ c' :: post
    ∧ sel c = true ∧ f c = Ok c'
    ∧ Forall (fun c0 => sel c0 = false) pre.
Proof.
  revert cs'. induction cs as [|c0 cs IH]; intros cs'; [done|]. simpl.
  destruct (sel c0) eqn:Hsel.
  - intros [= Hf]. apply bindR_Ok in Hf as (c' & Hf & [= <-]).
    by exists [], c0, c', cs.
  - destruct (updateFirst sel f cs) as [r|]; [|done].
    intros [= Hr]. apply bindR_Ok in Hr as (cs'' & -> & [= <-]).
    destruct (IH _ eq_refl) as (pre & c & c' & post & -> & -> & Hc & Hf & Hpre).
    exists (c0 :: pre), c, c', post. repeat split; try done. by constructor.
Qed.

Section Frame.
Variable upd : list string → node H → result (node H).
Hypothesis upd_shape : ∀ names n n',
  upd names n = Ok n' →
  path n' = path n ∧ staticChild n' = staticChild n
  ∧ wildcardChild n' = wildcardChild n ∧ catchAllChild n' = catchAllChild n.
Hypothesis upd_extends : ∀ names n n', upd names n = Ok n' → extends n n'.

Lemma upd_frame names n n' segs0 n0 :
  upd names n = Ok n' → locate n segs0 = Some n0 →
  ∃ n0', locate n' segs0 = Some n0' ∧ extends n0 n0'.
Proof.
  intros Hupd. pose proof (upd_shape _ _ _ Hupd) as (_ & Hs & Hw & Hc).
  apply locate_same_children; try done. by eapply upd_extends.
Qed.

(** What was reached before [grow] is still reached after it. *)
Lemma grow_frame rest : ∀ n lit names n' fl r,
  litOf (Static lit :: rest) = (fl, r) →
  (fl = "" → ∀ name r', r = Wildcard name :: r' → wildcardChild n = None) →
  (fl = "" → ∀ name r', r = CatchAll name :: r' → catchAllChild n = None) →
  grow upd n lit rest names = Ok n' →
  ∀ segs0 n0, locate n segs0 = Some n0 →
              ∃ n0', locate n' segs0 = Some n0' ∧ extends n0 n0'.
Proof.
  induction rest as [|[l|name|name] rest IH];
    intros n lit names n' fl r Hlit Hwc Hcc Hgrow segs0 n0 Hloc;
    simpl in Hgrow.
  - apply underNew_Ok in Hgrow as [[_ Hupd]|(_ & c & _ & ->)].
    + by eapply upd_frame.
    + by apply locate_addStatic.
  - eapply (IH _ (lit +:+ l)); [|done..].
    simpl in *. destruct (litOf rest) as [l' r'].
    by rewrite append_assoc.
  - simpl in Hlit. rewrite append_empty_r in Hlit. injection Hlit as <- <-.
    apply underNew_Ok in Hgrow as [[-> Hf]|(_ & c & _ & ->)].
    + apply bindR_Ok in Hf as (w & _ & [= <-]).
      apply locate_setWildcard; [|done]. by eapply Hwc.
    + by apply locate_addStatic.
  - simpl in Hlit. rewrite append_empty_r in Hlit. injection Hlit as <- <-.
    apply underNew_Ok in Hgrow as [[-> Hf]|(_ & c & _ & ->)].
    + destruct rest; [|done]. apply bindR_Ok in Hf as (c & _ & [= <-]).
      apply locate_setCatchAll; [|done]. by eapply Hcc.
    + by apply locate_addStatic.
Qed.

(** The child that replaces [c] in the static step starts with the
    same byte. *)
Lemma insertChild_firstByte b l rest names c c' :
  startsWith b c = true →
  insertChild upd (insertAt upd) (String b l) rest names c = Ok c' →
  firstByte (path c') = firstByte (path c).
Proof.
  intros Hsel%bool_decide_eq_true Hins. unfold insertChild in Hins.
  destruct (splitCommon (path c) (String b l)) as [[common fr] lr] eqn:Hs.
  destruct fr as [|a fr'].
  - by rewrite (insertAt_path _ (upd_shape_path _ upd_shape) _ _ _ _ Hins).
  - rewrite (grow_path _ (upd_shape_path _ upd_shape) _ _ _ _ _ Hins).
    cbn [path splitNode].
    rewrite (splitCommon_firstByte _ _ _ _ _ b Hs); done.
Qed.

(** What a pattern reached in a split child it reaches in the
    shortened node below the shared prefix. *)
Lemma locate_splitNode common fr c lr0 rest0 n0 :
  fr ≠ "" → litOf rest0 = ("", rest0) →
  locate c (Static lr0 :: rest0) = Some n0 →
  ∃ n1, locate (splitNode common fr c) (Static (fr +:+ lr0) :: rest0) = Some n1
        ∧ extends n0 n1.
Proof.
  intros Hfr Hrest0 Hloc.
  destruct (locate_setPath fr _ _ _ Hloc) as (n1 & Hloc1 & Hext).
  exists n1. split; [|done].
  assert (∃ a, firstByte fr = Some a) as [a Ha].
  { destruct fr as [|a fr']; [done|]. by exists a. }
  assert (litOf (Static (fr +:+ lr0) :: rest0) = (fr +:+ lr0, rest0)) as Hl.
  { rewrite (litOf_static _ _ _ _ Hrest0). by rewrite append_empty_r. }
  rewrite (locate_lit _ _ _ _ a Hl).
  2:{ destruct fr as [|a' fr']; [done|]. by rewrite append_cons. }
  unfold splitNode. cbn [staticChild pickFirst].
  unfold startsWith at 1. cbn [path setPath].
  rewrite bool_decide_eq_true_2 by done.
  unfold locateChild. cbn [path setPath]. by rewrite splitCommon_prefix.
Qed.

Lemma insertAt_frame n : ∀ segs names n',
  insertAt upd n segs names = Ok n' →
  ∀ segs0 n0, locate n segs0 = Some n0 →
              ∃ n0', locate n' segs0 = Some n0' ∧ extends n0 n0'.
Proof.
  induction n as [frag sc wc cc lh ns sl IHsc IHwc _] using node_induction.
  intros segs names n'. rewrite insertAt_eq.
  destruct (litOf segs) as [lit rest] eqn:Hlit.
  pose proof (litOf_resume_lit _ _ _ Hlit) as Hres.
  cbn [path staticChild wildcardChild catchAllChild leafHandler
       leafWildcardNames addSlash].
  destruct lit as [|b l].
  - destruct rest as [|[l|name|name] rest'].
    + intros Hupd segs0 n0. by eapply upd_frame.
    + by apply litOf_no_static in Hlit.
    + destruct wc as [w|].
      * intros (w' & Hw & [= <-])%bindR_Ok segs0 n0. rewrite !locate_eq.
        destruct (litOf segs0) as [lit0 rest0].
        cbn [staticChild wildcardChild catchAllChild].
        destruct lit0 as [|b0 l0].
        -- destruct rest0 as [|[l0|name0|name0] rest0]; try done.
           ++ intros [= <-]. eexists. split; [done|]. by apply extends_same_leaf.
           ++ by apply (IHwc w eq_refl _ _ _ Hw).
           ++ intros Hloc. exists n0. split; [done|apply extends_refl].
        -- intros Hloc. exists n0. split; [done|apply extends_refl].
      * intros Hgrow. eapply grow_frame; [exact Hres|done|done|exact Hgrow].
    + destruct cc as [c|].
      * destruct rest' as [|s0 rest']; [|done].
        case_bool_decide as Hname; [|done].
        intros (c' & Hc & [= <-])%bindR_Ok segs0 n0. rewrite !locate_eq.
        destruct (litOf segs0) as [lit0 rest0].
        cbn [staticChild wildcardChild catchAllChild].
        destruct lit0 as [|b0 l0].
        -- destruct rest0 as [|[l0|name0|name0] rest0]; try done.
           ++ intros [= <-]. eexists. split; [done|]. by apply extends_same_leaf.
           ++ intros Hloc. exists n0. split; [done|apply extends_refl].
           ++ destruct rest0; [|done].
              pose proof (upd_shape _ _ _ Hc) as (Hp & _).
              rewrite Hp. case_bool_decide; [|done].
              intros [= <-]. exists c'. split; [done|]. by eapply upd_extends.
        -- intros Hloc. exists n0. split; [done|apply extends_refl].
      * intros Hgrow. eapply grow_frame; [exact Hres|done|done|exact Hgrow].
  - destruct (updateFirst _ _ _) as [r|] eqn:Hu.
    + intros (sc' & -> & [= <-])%bindR_Ok segs0 n0.
      apply updateFirst_Ok_first in Hu
        as (pre & c & c' & post & -> & -> & Hsel & Hins & Hpre).
      apply Forall_app in IHsc as [_ [IHc _]%Forall_cons].
      rewrite !locate_eq.
      destruct (litOf segs0) as [lit0 rest0] eqn:Hl0.
      pose proof (litOf_rest _ _ _ Hl0) as Hrest0.
      cbn [staticChild wildcardChild catchAllChild].
      destruct lit0 as [|b0 l0].
      * destruct rest0 as [|[l0|name0|name0] rest0]; try done.
        -- intros [= <-]. eexists. split; [done|]. by apply extends_same_leaf.
        -- intros Hloc. exists n0. split; [done|apply extends_refl].
        -- intros Hloc. exists n0. split; [done|apply extends_refl].
      * apply pickFirst_replace; [apply extends_refl| |].
        { apply startsWith_firstByte. by eapply insertChild_firstByte. }
        intros Hsel0. unfold locateChild at 1.
        destruct (splitCommon (path c) (String b0 l0))
          as [[cm0 fr0] lr0] eqn:Hs0.
        destruct fr0 as [|a0 fr0']; [|done]. intros Hloc0.
        pose proof (splitCommon_spec _ _ _ _ _ Hs0) as (Hpc & Hlit0 & _).
        rewrite append_empty_r in Hpc. subst cm0.
        unfold insertChild in Hins.
        destruct (splitCommon (path c) (String b l)) as [[common fr] lr] eqn:Hs.
        pose proof (splitCommon_spec _ _ _ _ _ Hs) as (Hfrag & _ & _).
        destruct fr as [|a fr'] eqn:Hfr.
        -- unfold locateChild.
           rewrite (insertAt_path _ (upd_shape_path _ upd_shape) _ _ _ _ Hins).
           rewrite Hs0. by eapply IHc.
        -- rewrite <- Hfr in *.
           destruct (locate_splitNode common fr c lr0 rest0 n0)
             as (n1 & Hloc1 & Hext1); [by rewrite Hfr|done..|].
           assert (litOf (Static lr :: rest) = (lr, rest)) as Hlr.
           { by eapply litOf_resume. }
           assert (∃ n0', locate c' (Static (fr +:+ lr0) :: rest0) = Some n0'
                          ∧ extends n1 n0') as (n0' & Hloc' & Hext').
           { by eapply (grow_frame rest (splitNode common fr c) lr names c'
                          lr rest Hlr). }
           exists n0'. split; [|by eapply extends_trans].
           unfold locateChild.
           rewrite (grow_path _ (upd_shape_path _ upd_shape) _ _ _ _ _ Hins).
           cbn [path splitNode]. rewrite Hlit0, Hfrag, append_assoc.
           by rewrite splitCommon_prefix.
    + intros Hgrow. eapply grow_frame; [exact Hres|done|done|exact Hgrow].
Qed.
End Frame.

(** *** Registration at the reached node *)

Lemma setHandler_path method e slash names n n' :
  setHandler method e slash names n = Ok n' → path n' = path n.
Proof.
  unfold setHandler. repeat case_match; try done; by intros [= <-].
Qed.

Lemma setHandler_registered method e slash names n n' :
  isTerminal n = true → setHandler method e slash names n = Ok n' →
  addSlash n' = addSlash n
  ∧ leafHandler n !! method = None
  ∧ leafHandler n' = <[method := e]> (leafHandler n).
Proof.
  intros Hn. unfold setHandler. rewrite Hn.
  case_bool_decide; [|done].
  destruct (leafHandler n !! method) eqn:Hm; [done|]. by intros [= <-].
Qed.

Lemma setHandler_first method e slash names n n' :
  isTerminal n = false → setHandler method e slash names n = Ok n' →
  addSlash n' = slash ∧ leafHandler n' = <[method := e]> (leafHandler n).
Proof. intros Hn. rewrite setHandler_new by done. by intros [= <-]. Qed.

Lemma isTerminal_inserted n method e lh :
  leafHandler n = <[method := e]> lh → isTerminal n = true.
Proof.
  intros Hn. apply isTerminal_leafHandler. rewrite Hn.
  apply insert_non_empty.
Qed.

Lemma Insert_reached t method pattern h t' :
  Insert t method pattern h = Ok t' →
  reached (setHandler method (mkEntry h pattern) (trailingSlash pattern).1)
    t t' (decompose (trailingSlash pattern).2).
Proof.
  unfold Insert. destruct (trailingSlash pattern) as [slash p0] eqn:Hts.
  apply insertAt_reached. intros names k k'. apply setHandler_path.
Qed.

(** The first registration of a path fixes the flag of its node to the
    slash presence of the pattern. *)
Lemma first_registration_sets_flag t method pattern h t' :
  match nodeOf t pattern with
  | Some n => isTerminal n = false
  | None => True
  end →
  Insert t method pattern h = Ok t' →
  ∃ n', nodeOf t' pattern = Some n'
        ∧ addSlash n' = (trailingSlash pattern).1
        ∧ isTerminal n' = true.
Proof.
  intros Hfresh (names & m0 & m' & Hupd & Hloc & Hm)%Insert_reached.
  exists m'. split; [done|]. unfold nodeOf in Hfresh.
  assert (isTerminal m0 = false) as Hm0.
  { destruct (locate t _) as [m|]; [by subst|].
    apply not_true_is_false. rewrite isTerminal_leafHandler, Hm.
    intros Hne. by apply Hne. }
  destruct (setHandler_first _ _ _ _ _ _ Hm0 Hupd) as [Hslash Hlh].
  split; [done|]. by eapply isTerminal_inserted.
Qed.

Lemma isTerminal_false n : isTerminal n = false → leafHandler n = ∅.
Proof.
  unfold isTerminal. intros Hn%bool_decide_eq_false.
  apply dom_empty_inv_L. by apply dec_stable.
Qed.

Lemma setHandler_extends method e slash names n n' :
  setHandler method e slash names n = Ok n' → extends n n'.
Proof.
  unfold setHandler. destruct (isTerminal n) eqn:Hn.
  - case_bool_decide as Hnames; [|done].
    destruct (leafHandler n !! method) eqn:Hm; [done|].
    intros [= <-]. split; simpl; [|done].
    intros method' e' He'. rewrite lookup_insert_ne; [done|].
    intros <-. congruence.
  - intros [= <-]. split; simpl; [|intros ?; congruence].
    intros method' e'. by rewrite (isTerminal_false _ Hn), lookup_empty.
Qed.

(** Whatever a pattern reached before a registration it reaches after
    it, at a node that extends the former one. *)
Lemma Insert_frame t method pattern h t' :
  Insert t method pattern h = Ok t' →
  ∀ segs0 n0, locate t segs0 = Some n0 →
              ∃ n0', locate t' segs0 = Some n0' ∧ extends n0 n0'.
Proof.
  unfold Insert. destruct (trailingSlash pattern) as [slash p0].
  apply insertAt_frame.
  - intros names k k'. apply setHandler_shape.
  - intros names k k'. apply setHandler_extends.
Qed.

Lemma InsertAll_frame routes : ∀ t t',
  InsertAll t routes = Ok t' →
  ∀ segs0 n0, locate t segs0 = Some n0 →
              ∃ n0', locate t' segs0 = Some n0' ∧ extends n0 n0'.
Proof.
  induction routes as [|[[method pattern] h] routes IH];
    intros t t'; simpl.
  - intros [= <-] segs0 n0 Hloc. exists n0. split; [done|apply extends_refl].
  - intros (t1 & Ht1 & Hrest)%bindR_Ok segs0 n0 Hloc.
    destruct (Insert_frame _ _ _ _ _ Ht1 _ _ Hloc) as (n1 & Hloc1 & Hext1).
    destruct (IH _ _ Hrest _ _ Hloc1) as (n0' & Hloc' & Hext').
    exists n0'. split; [done|by eapply extends_trans].
Qed.

(** What a registration leaves at the node of its pattern. *)
Lemma Insert_registers t method pattern h t' :
  Insert t method pattern h = Ok t' →
  ∃ n', nodeOf t' pattern = Some n'
        ∧ leafHandler n' !! method = Some (mkEntry h pattern).
Proof.
  intros (names & m0 & m' & Hupd & Hloc & _)%Insert_reached.
  exists m'. split; [done|].
  unfold setHandler in Hupd.
  repeat case_match; try done; injection Hupd as <-; simpl;
    apply lookup_insert_eq.
Qed.

(** *** Static routes: reaching and matching coincide *)

Lemma pickFirst_Some {B : Type} (sel : node H → bool)
    (f : node H → option B) cs x :
  pickFirst sel f cs = Some x → ∃ c, c ∈ cs ∧ sel c = true ∧ f c = Some x.
Proof.
  induction cs as [|c cs IH]; [done|]. simpl.
  destruct (sel c) eqn:Hc.
  - intros Hf. exists c. split; [apply list_elem_of_here|done].
  - intros (c' & Hin & Hsel & Hf)%IH. exists c'.
    split; [by apply list_elem_of_further|done].
Qed.

Lemma stripPrefix_app (pre rest : string) :
  stripPrefix pre (pre +:+ rest) = Some rest.
Proof.
  induction pre as [|a pre IH]; [done|].
  rewrite append_cons. simpl. by rewrite Ascii.eqb_refl.
Qed.

Lemma forallb_elem (f : node H → bool) cs c :
  forallb f cs = true → c ∈ cs → f c = true.
Proof.
  rewrite forallb_forall. intros Hall Hin. apply Hall.
  by apply list_elem_of_In.
Qed.

(** In a keyed tree the node a static pattern reaches is the node the
    matcher finds for the pattern's literal path. *)
Lemma locate_static_search n : ∀ lit n0,
  wellKeyed n = true → locate n [Static lit] = Some n0 →
  isTerminal n0 = true → search n lit = Some (n0, []).
Proof.
  induction n as [frag sc wc cc lh ns sl IHsc _ _] using node_induction.
  intros lit n0 Hwk Hloc Hterm.
  apply wellKeyed_parts in Hwk as (Hk & Hall & _ & _).
  cbn [staticChild] in *.
  set (n := mkNode frag sc wc cc lh ns sl) in *.
  assert (litOf [Static lit] = (lit, [])) as Hlit.
  { simpl. by rewrite append_empty_r. }
  destruct lit as [|b l].
  - rewrite (locate_root _ _ Hlit) in Hloc. injection Hloc as <-.
    rewrite search_exhausted by done. unfold searchHere. by rewrite Hterm.
  - rewrite (locate_lit _ _ _ _ b Hlit) in Hloc by done.
    apply pickFirst_Some in Hloc as (c & Hin & Hsel & Hloc).
    unfold locateChild in Hloc.
    destruct (splitCommon (path c) (String b l)) as [[cm fr] lr] eqn:Hs.
    destruct fr as [|a fr']; [|done].
    pose proof (splitCommon_spec _ _ _ _ _ Hs) as (Hpc & Hl & _).
    rewrite append_empty_r in Hpc. subst cm.
    rewrite Forall_forall in IHsc.
    apply (IHsc c Hin) in Hloc; [|by eapply forallb_elem|done].
    rewrite search_eq. cbn [searchHere orElse]. subst n. cbn [staticChild].
    rewrite (searchStatic_keyed search sc c _ lr); [by rewrite Hloc|done..|].
    rewrite Hl. apply stripPrefix_app.
Qed.

Lemma bindParams_no_values names : bindParams names [] = [].
Proof. unfold bindParams. by destruct names. Qed.

(** A registered static route answers for its literal path whatever
    else is registered, before or after it. *)
Lemma static_route_wins routes : ∀ t0 t method pattern h lit,
  wellKeyed t0 = true → InsertAll t0 routes = Ok t →
  (method, pattern, h) ∈ routes →
  decompose (trailingSlash pattern).2 = [Static lit] →
  Lookup t method lit = Found h [] pattern.
Proof.
  induction routes as [|[[method' pattern'] h'] routes IH];
    intros t0 t method pattern h lit Hwk Hall Hin Hsegs.
  - by apply elem_of_nil in Hin.
  - simpl in Hall. apply bindR_Ok in Hall as (t1 & Ht1 & Hrest).
    pose proof (Insert_wellKeyed _ _ _ _ _ Hwk Ht1) as Hwk1.
    apply elem_of_cons in Hin as [[= -> -> ->]|Hin]; [|by eapply IH].
    destruct (Insert_registers _ _ _ _ _ Ht1) as (n1 & Hn1 & He1).
    unfold nodeOf in Hn1. rewrite Hsegs in Hn1.
    destruct (InsertAll_frame _ _ _ Hrest _ _ Hn1) as (n & Hn & [Hext _]).
    pose proof (Hext _ _ He1) as He.
    pose proof (InsertAll_wellKeyed _ _ _ Hwk1 Hrest) as Hwkt.
    assert (isTerminal n = true) as Hterm.
    { apply isTerminal_leafHandler. intros Hempty.
      by rewrite Hempty, lookup_empty in He. }
    unfold Lookup. rewrite (locate_static_search _ _ _ Hwkt Hn Hterm).
    unfold dispatch. cbn [fst snd]. rewrite He. cbn [handler route].
    by rewrite bindParams_no_values.
Qed.

End RouterProps2.

(** ** The claims about the routing core *)

Section RouterClaims.
Context {H : Type}.
Implicit Types (n c w t : node H) (p : string) (cs : list (node H)).

Lemma static_child_decides n method p c p' r :
  keyed (staticChild n) = true → c ∈ staticChild n →
  stripPrefix (path c) p = Some p' → search c p' = Some r →
  search n p = Some r
  ∧ Lookup n method p = dispatch method r
  ∧ ∀ e, leafHandler r.1 !! method = Some e →
         Lookup n method p
         = Found (handler e) (bindParams (leafWildcardNames r.1) r.2) (route e).
Proof.
  intros Hk Hin Hpre Hr.
  assert (search n p = Some r) as Hs.
  { rewrite search_eq.
    destruct (keyed_elem _ _ Hk Hin) as [b Hb].
    pose proof (stripPrefix_firstByte _ _ _ _ Hpre Hb) as Hp.
    destruct p as [|a p]; [done|]. simpl.
    by rewrite (searchStatic_keyed search _ c _ p'), Hr. }
  split; [done|]. unfold Lookup. rewrite Hs. split; [done|].
  intros e He. unfold dispatch. by rewrite He.
Qed.

(** C3: a static route has priority over its wildcard and catch-all
    siblings.  At a node whose static children are keyed by their
    first byte, a path that a static child and its subtree match in
    full is resolved by that static child: [search] returns its node
    and values and [Lookup] dispatches on them, whatever wildcard and
    catch-all siblings the node has.  Every tree built by
    registrations is keyed at every node, in whatever order the routes
    were registered; and a registered route without parameters answers
    for its literal path whatever else is registered, before or after
    it. *)
Theorem static_route_has_priority :
  (∀ n method p c p' r,
      keyed (staticChild n) = true → c ∈ staticChild n →
      stripPrefix (path c) p = Some p' → search c p' = Some r →
      search n p = Some r
      ∧ Lookup n method p = dispatch method r
      ∧ ∀ e, leafHandler r.1 !! method = Some e →
             Lookup n method p
             = Found (handler e) (bindParams (leafWildcardNames r.1) r.2)
                 (route e))
  ∧ (∀ routes t, InsertAll (H:=H) emptyTree routes = Ok t →
                 wellKeyed t = true)
  ∧ (∀ routes t method pattern (h : H) lit,
        InsertAll emptyTree routes = Ok t →
        (method, pattern, h) ∈ routes →
        decompose (trailingSlash pattern).2 = [Static lit] →
        Lookup t method lit = Found h [] pattern).
Proof.
  split; [apply static_child_decides|]. split.
  - intros routes t. by apply InsertAll_wellKeyed.
  - intros routes t method pattern h lit. by apply static_route_wins.
Qed.

Ltac search_eval :=
  repeat (progress
            (unfold searchHere, searchStatic, searchWildcard, searchCatchAll,
               orElse;
             simpl;
             rewrite ?isTerminal_empty, ?isTerminal_insert)).

Ltac insert_eval :=
  unfold Insert;
  match goal with
  | |- context [setHandler ?m ?e] =>
      let upd := fresh "upd" in
      let Hupd := fresh "Hupd" in
      remember (setHandler m e) as upd eqn:Hupd;
      vm_compute; subst upd
  end;
  rewrite setHandler_new by (vm_compute; reflexivity);
  reflexivity.

(** C4: a catch-all is never matched by an empty remainder.
    Whatever the matcher returns, in any tree, the path matches the
    pattern that leads to the returned node, and a pattern that ends
    with a catch-all only matches paths that leave the catch-all a
    non-empty remainder; at the node where a catch-all child hangs, a
    path of which nothing is left can only match the node itself.  In
    particular the tree of [/images/*path] matches neither [/images/]
    nor [/images], while it does match a path with something after
    [/images/]. *)
Theorem catch_all_rejects_empty_remainder :
  (∀ t p n vals,
      search t p = Some (n, vals) →
      ∃ segs, Trace t segs n ∧ Matches segs p vals)
  ∧ (∀ pre name p vals,
        Matches (pre ++ [CatchAll name]) p vals →
        ∃ q rem vals',
          p = q +:+ rem ∧ rem ≠ "" ∧ Matches pre q vals'
          ∧ vals = vals' ++ [UnescapeParam rem])
  ∧ (∀ n c, catchAllChild n = Some c → keyed (staticChild n) = true →
            searchCatchAll (catchAllChild n) "" = None
            ∧ search n "" = if isTerminal n then Some (n, []) else None)
  ∧ (∀ (method : string) (h : H),
        ∃ t,
          Insert emptyTree method "/images/*path" h = Ok t
          ∧ (∀ m, Lookup t m "/images/" = NotFound)
          ∧ (∀ m, Lookup t m "/images" = NotFound)
          ∧ Lookup t method "/images/a.png"
            = Found h [mkParam "path" "a.png"] "/images/*path").
Proof.
  split; [intros t p n vals; apply search_sound|].
  split; [intros pre; apply Matches_catch_all|].
  split.
  { intros n c Hc Hk. split; [by rewrite Hc|]. by apply search_exhausted. }
  intros method h.
  exists (branchNode ""
            [branchNode "/images/" [] None
               (Some (leafNode "path" method (mkEntry h "/images/*path")
                        ["path"] false))]
            None None).
  split; [insert_eval|].
  unfold Lookup, branchNode, leafNode.
  repeat split; try intros m; search_eval; try done.
  unfold dispatch. simpl. by rewrite lookup_insert_eq.
Qed.

Lemma splitToken_whole (v : string) :
  IndexByte v "/" = None → splitToken v = (v, "").
Proof.
  induction v as [|a v IH]; [done|]. simpl.
  destruct (Ascii.eqb a "/"); [done|].
  destruct (IndexByte v "/"); [done|]. intros _. by rewrite IH.
Qed.

(** C5: with the raw request path as the source, [/post/:post]
    matches [/post/abc%2Fdef]: the encoded slash does not end the
    segment, and the parameter is bound to the decoded value
    [abc/def].  The same holds for every non-empty segment without a
    literal slash: it is bound, decoded once. *)
Theorem percent_encoded_slash_binds_decoded (method : string) (h : H) :
  ∃ t,
    Insert emptyTree method "/post/:post" h = Ok t
    ∧ Lookup t method (sourcePath RawURI "/post/abc%2Fdef")
      = Found h [mkParam "post" "abc/def"] "/post/:post"
    ∧ ∀ v, v ≠ "" → IndexByte v "/" = None →
           Lookup t method (sourcePath RawURI ("/post/" +:+ v))
           = Found h [mkParam "post" (UnescapeParam v)] "/post/:post".
Proof.
  exists (branchNode ""
            [branchNode "/post/" []
               (Some (leafNode "" method (mkEntry h "/post/:post")
                        ["post"] false)) None]
            None None).
  split; [insert_eval|].
  assert (∀ v, v ≠ "" → IndexByte v "/" = None →
    Lookup
      (branchNode ""
         [branchNode "/post/" []
            (Some (leafNode "" method (mkEntry h "/post/:post")
                     ["post"] false)) None]
         None None)
      method (sourcePath RawURI ("/post/" +:+ v))
    = Found h [mkParam "post" (UnescapeParam v)] "/post/:post") as Hgen.
  { intros v Hv Hslash. destruct v as [|a v']; [done|].
    unfold Lookup, sourcePath, branchNode, leafNode.
    rewrite !append_cons, append_empty_l.
    rewrite search_eq. unfold searchStatic.
    cbn [searchHere orElse staticChild firstSome path stripPrefix].
    rewrite !Ascii.eqb_refl.
    rewrite search_eq. unfold searchWildcard, searchStatic.
    cbn [staticChild wildcardChild catchAllChild firstSome searchHere orElse].
    rewrite (splitToken_whole _ Hslash), search_childless.
    unfold searchHere. rewrite isTerminal_insert. cbn [orElse].
    unfold dispatch. cbn [fst snd leafHandler leafWildcardNames].
    by rewrite lookup_insert_eq. }
  split; [|exact Hgen].
  by apply (Hgen "abc%2Fdef").
Qed.

(** A static pattern inserted into the empty tree becomes the only
    child of the root. *)
Lemma Insert_static_alone method pattern (h : H) (lit : string) :
  trailingSlash pattern = (false, pattern) →
  decompose pattern = [Static lit] → lit ≠ "" →
  Insert emptyTree method pattern h
  = Ok (branchNode ""
          [leafNode lit method (mkEntry h pattern) [] false] None None).
Proof.
  intros Hts Hsegs Hlit. unfold Insert. rewrite Hts, Hsegs.
  unfold emptyTree, emptyNode. cbn [insertAt litOf].
  rewrite append_empty_r.
  destruct lit as [|b lit]; [done|].
  cbn [updateFirst grow underNew].
  rewrite setHandler_new by apply isTerminal_empty.
  reflexivity.
Qed.

(** The only path a tree with one static leaf matches is the leaf's
    fragment. *)
Lemma Lookup_static_alone method (e : entry H) (lit : string) m p :
  p ≠ lit →
  Lookup (branchNode "" [leafNode lit method e [] false] None None) m p
  = NotFound.
Proof.
  intros Hp. unfold Lookup, branchNode, leafNode. rewrite search_eq.
  unfold searchStatic.
  cbn [staticChild wildcardChild catchAllChild firstSome path
       searchWildcard searchCatchAll].
  destruct (stripPrefix lit p) as [p'|] eqn:Hpre.
  - rewrite search_childless.
    destruct p' as [|a p'].
    + by apply stripPrefix_all in Hpre.
    + by destruct p.
  - by destruct p.
Qed.

Lemma Matches_static_only (lit p : string) (vals : list string) :
  Matches [Static lit] p vals ↔ p = lit ∧ vals = [].
Proof.
  split.
  - inversion 1 as [|lit' segs p0 vals0 Hrest| |]; subst.
    inversion Hrest; subst. by rewrite append_empty_r.
  - intros [-> ->]. rewrite <- (append_empty_r lit) at 2.
    apply MatchStatic, MatchEnd.
Qed.

(** C6: a pattern segment whose leading [:] or [*] is escaped with a
    backslash matches exactly the literal path.  Let the pattern be
    literal text [dir] without markers, a slash, and a last segment
    that opens with a backslash followed by the marker [c], which is
    [:] or [*], and goes on with [tok].  Whatever the pattern goes on
    with, the escaped segment is read as the literal bytes [c tok],
    without the backslash.  The pattern is the static route of the
    literal path [dir/c tok]: it matches that path, with no
    parameter, and no other; registered alone, [Lookup] finds it for
    that path and finds nothing for any other; registered among any
    other routes, in any order, it still answers for that path. *)
Theorem escaped_marker_matches_only_literal
    (method : string) (h : H) (dir tok : string) (c : ascii) :
  c = ":"%char ∨ c = "*"%char →
  IndexByte dir ":" = None → IndexByte dir "*" = None →
  IndexByte dir "\" = None →
  IndexByte tok "/" = None →
  let pattern := dir +:+ "/\" +:+ String c tok in
  let literal := dir +:+ "/" +:+ String c tok in
  (∀ more,
      scan SegStart (dir +:+ "/\" +:+ String c (tok +:+ more))
      = (literal +:+ (scan InStatic more).1, (scan InStatic more).2))
  ∧ decompose pattern = [Static literal]
  ∧ (∀ p vals, Matches (decompose pattern) p vals ↔ p = literal ∧ vals = [])
  ∧ (∃ t,
        Insert emptyTree method pattern h = Ok t
        ∧ Lookup t method literal = Found h [] pattern
        ∧ ∀ m p, p ≠ literal → Lookup t m p = NotFound)
  ∧ (∀ routes t,
        InsertAll emptyTree routes = Ok t →
        (method, pattern, h) ∈ routes →
        Lookup t method literal = Found h [] pattern).
Proof.
  intros Hc Hd1 Hd2 Hd3 Htok pattern literal.
  assert (Hscan : ∀ more,
            scan SegStart (dir +:+ "/\" +:+ String c (tok +:+ more))
            = (literal +:+ (scan InStatic more).1, (scan InStatic more).2)).
  { intros more.
    change (dir +:+ "/\" +:+ String c (tok +:+ more))
      with (dir +:+ String "/" (String "\" (String c (tok +:+ more)))).
    rewrite scan_plain by done. rewrite scan_escaped by done.
    unfold literal. cbn [fst snd].
    by rewrite !append_assoc. }
  assert (Hne : literal ≠ "").
  { unfold literal. by destruct dir. }
  assert (Hsegs : decompose pattern = [Static literal]).
  { unfold decompose, pattern.
    rewrite <- (append_empty_r tok). rewrite Hscan.
    cbn [scan fst snd]. rewrite !append_empty_r.
    unfold closeStatic. cbn [fst snd].
    by destruct literal. }
  assert (Hts : trailingSlash pattern = (false, pattern)).
  { unfold trailingSlash.
    rewrite bool_decide_eq_false_2; [by rewrite andb_false_r|].
    unfold pattern. rewrite <- append_assoc.
    rewrite length_append. cbn [String.length].
    replace (String.length (dir +:+ "/\") + S (String.length tok) - 1)
      with (String.length (dir +:+ "/\") + String.length tok) by lia.
    rewrite get_append_r.
    apply IndexByte_None_get. cbn [IndexByte].
    rewrite Htok. by destruct Hc as [-> | ->]. }
  pose proof (Insert_static_alone method pattern h literal Hts Hsegs Hne)
    as Hins.
  split; [exact Hscan|]. split; [exact Hsegs|].
  split; [intros p vals; rewrite Hsegs; apply Matches_static_only|].
  assert (Hall : ∀ routes t,
            InsertAll emptyTree routes = Ok t →
            (method, pattern, h) ∈ routes →
            Lookup t method literal = Found h [] pattern).
  { intros routes t Hroutes Hin.
    apply (static_route_wins routes emptyTree t method pattern h literal);
      try done.
    by rewrite Hts. }
  split; [|exact Hall].
  eexists. split; [exact Hins|]. split.
  - apply (Hall [(method, pattern, h)]).
    + cbn [InsertAll]. by rewrite Hins.
    + apply list_elem_of_here.
  - intros m p Hp. by apply Lookup_static_alone.
Qed.

(** C7: once a path is registered, its node keeps its trailing-slash
    flag: the first registration wins.  Let [n] be the node that an
    earlier registration [registered] has made terminal.  A later
    insertion of a pattern that leads to the same node (the two
    patterns differ at most by a trailing slash) succeeds only for a
    method that [n] does not have yet, and leaves the flag as it was,
    whatever the slash presence of the later pattern; the node only
    gains the new entry.  And after any list of later registrations,
    for whatever paths, the node of [registered] still has its flag
    and its routes. *)
Theorem trailing_slash_flag_first_registration_wins
    t (registered : string) n :
  nodeOf t registered = Some n → isTerminal n = true →
  (∀ pattern method (h : H) t',
      (trailingSlash pattern).2 = (trailingSlash registered).2 →
      Insert t method pattern h = Ok t' →
      ∃ n', nodeOf t' pattern = Some n'
            ∧ addSlash n' = addSlash n
            ∧ leafHandler n !! method = None
            ∧ leafHandler n' = <[method := mkEntry h pattern]> (leafHandler n)
            ∧ isTerminal n' = true)
  ∧ (∀ routes t',
        InsertAll t routes = Ok t' →
        ∃ n', nodeOf t' registered = Some n'
              ∧ addSlash n' = addSlash n
              ∧ isTerminal n' = true
              ∧ ∀ method e, leafHandler n !! method = Some e →
                            leafHandler n' !! method = Some e).
Proof.
  intros Hn Hterm. split.
  - intros pattern method h t' Hsame
      (names & m0 & m' & Hupd & Hloc & Hm)%Insert_reached.
    unfold nodeOf in *. rewrite Hsame in Hm. rewrite Hn in Hm. subst m0.
    destruct (setHandler_registered _ _ _ _ _ _ Hterm Hupd)
      as (Hs & Hfree & Hlh).
    exists m'. repeat split; try done. by eapply isTerminal_inserted.
  - intros routes t' Hall.
    destruct (InsertAll_frame _ _ _ Hall _ _ Hn) as (n' & Hn' & Hext).
    exists n'. split; [done|].
    pose proof (extends_terminal _ _ Hext Hterm) as Hterm'.
    destruct Hext as [Hentries Hflag].
    destruct (Hflag Hterm) as [Hslash _]. done.
Qed.
End RouterClaims.

(** ** Instances *)

(** The theorems with hypotheses, applied to the sample inputs. *)

Lemma Middleware_sets_param_attributes_witness :
  ∃ σ' pre,
    Middleware (mkConfig true) okHandler tt sampleRequest recordingWorld
    = okHandler tt sampleRequest σ'
    ∧ attributes (SpanFromContext sampleRequest σ')
      = attributes (SpanFromContext sampleRequest recordingWorld) ++ pre
          ++ [mkKeyValue "http.route.param.id" "42";
              mkKeyValue "http.route.param.*" "a/b"]
    ∧ Forall (fun kv => Key kv = "http.route" ∨ Key kv = "http.client_ip") pre.
Proof.
  apply (Middleware_sets_param_attributes (mkConfig true) okHandler tt
           sampleRequest recordingWorld).
  reflexivity.
Defined.

Lemma Middleware_not_recording_is_next_witness :
  Middleware (mkConfig true) okHandler tt sampleRequest idleWorld
  = okHandler tt sampleRequest idleWorld.
Proof.
  apply (Middleware_not_recording_is_next (mkConfig true) okHandler tt
           sampleRequest idleWorld).
  reflexivity.
Defined.

Lemma static_route_has_priority_witness :
  search siblingsNode "about" = Some (aboutNode, [])
  ∧ Lookup siblingsNode "GET" "about" = dispatch "GET" (aboutNode, [])
  ∧ ∀ e, leafHandler aboutNode !! "GET" = Some e →
         Lookup siblingsNode "GET" "about"
         = Found (handler e) (bindParams (leafWildcardNames aboutNode) [])
             (route e).
Proof.
  apply (proj1 static_route_has_priority siblingsNode "GET" "about" aboutNode
           "" (aboutNode, [])).
  - reflexivity.
  - apply list_elem_of_here.
  - reflexivity.
  - vm_compute. reflexivity.
Defined.

Lemma escaped_marker_matches_only_literal_witness :
  (decompose "/foo/\*starToken" = [Static "/foo/*starToken"]
   ∧ (∀ p vals,
         Matches (decompose "/foo/\*starToken") p vals
         ↔ p = "/foo/*starToken" ∧ vals = [])
   ∧ ∃ t,
       Insert emptyTree "GET" "/foo/\*starToken" "star" = Ok t
       ∧ Lookup t "GET" "/foo/*starToken" = Found "star" [] "/foo/\*starToken"
       ∧ ∀ m p, p ≠ "/foo/*starToken" → Lookup t m p = NotFound)
  ∧ (decompose "/foo/\:colon" = [Static "/foo/:colon"]
     ∧ (∀ p vals,
           Matches (decompose "/foo/\:colon") p vals
           ↔ p = "/foo/:colon" ∧ vals = [])
     ∧ ∃ t,
         Insert emptyTree "GET" "/foo/\:colon" "colon" = Ok t
         ∧ Lookup t "GET" "/foo/:colon" = Found "colon" [] "/foo/\:colon"
         ∧ ∀ m p, p ≠ "/foo/:colon" → Lookup t m p = NotFound).
Proof.
  split.
  - destruct (escaped_marker_matches_only_literal "GET" "star" "/foo"
                "starToken" "*"%char)
      as (_ & Hsegs & Hmatch & Halone & _);
      [by right|reflexivity|reflexivity|reflexivity|reflexivity|].
    exact (conj Hsegs (conj Hmatch Halone)).
  - destruct (escaped_marker_matches_only_literal "GET" "colon" "/foo"
                "colon" ":"%char)
      as (_ & Hsegs & Hmatch & Halone & _);
      [by left|reflexivity|reflexivity|reflexivity|reflexivity|].
    exact (conj Hsegs (conj Hmatch Halone)).
Defined.

Lemma trailing_slash_flag_first_registration_wins_witness :
  ∃ n', nodeOf postsTree' "/posts" = Some n'
        ∧ addSlash n' = addSlash postsNode
        ∧ leafHandler postsNode !! "POST" = None
        ∧ leafHandler n'
          = <["POST" := mkEntry "form" "/posts"]> (leafHandler postsNode)
        ∧ isTerminal n' = true.
Proof.
  refine (proj1 (trailing_slash_flag_first_registration_wins postsTree
                   "/posts/" postsNode _ _)
            "/posts" "POST" "form" postsTree' _ _).
  - vm_compute. reflexivity.
  - vm_compute. reflexivity.
  - reflexivity.
  - vm_compute. reflexivity.
Defined.

(** The scenario set of the routing-priority example. *)
Example blog_scenarios :
  ∃ t,
    InsertAll emptyTree blogRoutes = Ok t
    ∧ Lookup t "GET" "/abc" = Found "page" [mkParam "page" "abc"] "/:page"
    ∧ Lookup t "GET" "/2014/05"
      = Found "archive" [mkParam "year" "2014"; mkParam "month" "05"]
          "/:year/:month"
    ∧ Lookup t "GET" "/2014/05/really-great-blog-post"
      = Found "post"
          [mkParam "year" "2014"; mkParam "month" "05";
           mkParam "post" "really-great-blog-post"]
          "/:year/:month/:post"
    ∧ Lookup t "GET" "/images/CoolImage.gif"
      = Found "static" [mkParam "path" "CoolImage.gif"] "/images/*path"
    ∧ Lookup t "GET" "/images/2014/05/MayImage.jpg"
      = Found "static" [mkParam "path" "2014/05/MayImage.jpg"] "/images/*path"
    ∧ Lookup t "GET" "/favicon.ico" = Found "favicon" [] "/favicon.ico".
Proof.
  destruct (InsertAll emptyTree blogRoutes) as [t|e] eqn:Ht;
    [|by vm_compute in Ht].
  exists t. split; [done|].
  vm_compute in Ht. injection Ht as <-.
  repeat split; vm_compute; reflexivity.
Qed.

(** In whatever order the three sibling routes are registered, the
    static one answers for its path. *)
Example static_priority_any_registration_order :
  Forall
    (fun routes =>
       ∃ t, InsertAll emptyTree routes = Ok t
            ∧ keyed (staticChild t) = true
            ∧ Lookup t "GET" "/about" = Found "aboutPage" [] "/about"
            ∧ Lookup t "GET" "/contact"
              = Found "anyPage" [mkParam "page" "contact"] "/:page"
            ∧ Lookup t "GET" "/a/b"
              = Found "fallback" [mkParam "rest" "a/b"] "/*rest")
    (permutations siblingRoutes).
Proof.
  apply Forall_forall. intros routes Hin%list_elem_of_In. vm_compute in Hin.
  repeat (destruct Hin as [<-|Hin];
          [destruct (InsertAll emptyTree _) as [t|e] eqn:Ht;
             [|by vm_compute in Ht];
           exists t; split; [done|];
           vm_compute in Ht; injection Ht as <-;
           repeat split; vm_compute; reflexivity|]).
  done.
Qed.

(** The trailing-slash example of the README, in both orders: the
    flag of [/posts] is the slash presence of the first pattern. *)
Example posts_flag_both_orders :
  (∃ t n, InsertAll emptyTree
            [("GET", "/posts/", "index"); ("POST", "/posts", "form")] = Ok t
          ∧ nodeOf t "/posts" = Some n ∧ addSlash n = true)
  ∧ (∃ t n, InsertAll emptyTree
              [("POST", "/posts", "form"); ("GET", "/posts/", "index")] = Ok t
            ∧ nodeOf t "/posts" = Some n ∧ addSlash n = false).
Proof.
  split.
  - destruct (InsertAll emptyTree _) as [t|e] eqn:Ht; [|by vm_compute in Ht].
    destruct (nodeOf t "/posts") as [n|] eqn:Hn.
    + exists t, n. split; [done|]. split; [done|].
      vm_compute in Ht. injection Ht as <-.
      vm_compute in Hn. by injection Hn as <-.
    + vm_compute in Ht. injection Ht as <-. by vm_compute in Hn.
  - destruct (InsertAll emptyTree _) as [t|e] eqn:Ht; [|by vm_compute in Ht].
    destruct (nodeOf t "/posts") as [n|] eqn:Hn.
    + exists t, n. split; [done|]. split; [done|].
      vm_compute in Ht. injection Ht as <-.
      vm_compute in Hn. by injection Hn as <-.
    + vm_compute in Ht. injection Ht as <-. by vm_compute in Hn.
Qed.

(** Path sources: the raw path keeps an encoded slash inside its
    segment and the value is decoded once; the decoded path turns it
    into a separator and the pattern no longer matches. *)
Example path_source_examples :
  ∃ t,
    Insert emptyTree "GET" "/post/:post" "show" = Ok t
    ∧ Lookup t "GET" (sourcePath RawURI "/post/abc%2fdef")
      = Found "show" [mkParam "post" "abc/def"] "/post/:post"
    ∧ Lookup t "GET" (sourcePath RawURI "/post/a%252Fb")
      = Found "show" [mkParam "post" "a%2Fb"] "/post/:post"
    ∧ Lookup t "GET" (sourcePath DecodedPath "/post/abc%2Fdef") = NotFound
    ∧ Lookup t "GET" (sourcePath RawURI "/post/abc/def") = NotFound.
Proof.
  destruct (Insert emptyTree _ _ _) as [t|e] eqn:Ht; [|by vm_compute in Ht].
  exists t. split; [done|].
  vm_compute in Ht. injection Ht as <-.
  repeat split; vm_compute; reflexivity.
Qed.

(** Escaped pattern segments, as in the README. *)
Example escaping_examples :
  decompose "/foo/\*starToken" = [Static "/foo/*starToken"]
  ∧ decompose "/foo/star*inTheMiddle" = [Static "/foo/star*inTheMiddle"]
  ∧ decompose "/foo/starBackslash\*" = [Static "/foo/starBackslash\*"]
  ∧ decompose "/foo/\\*backslashWithStar"
    = [Static "/foo/\*backslashWithStar"]
  ∧ decompose "/foo/\:colon/:id" = [Static "/foo/:colon/"; Wildcard "id"]
  ∧ decompose "/post/:postid/page/:page"
    = [Static "/post/"; Wildcard "postid"; Static "/page/"; Wildcard "page"]
  ∧ decompose "/images/*path" = [Static "/images/"; CatchAll "path"].
Proof. repeat split; reflexivity. Qed.

(** Registration-time errors. *)
Example registration_errors :
  InsertAll (H:=string) emptyTree [("GET", "/a", "x"); ("GET", "/a/", "y")]
  = Err DuplicateRoute
  ∧ InsertAll (H:=string) emptyTree [("GET", "/:a", "x"); ("POST", "/:b", "y")]
    = Err AmbiguousWildcardNames
  ∧ InsertAll (H:=string) emptyTree
      [("GET", "/f/*x", "x"); ("POST", "/f/*y", "y")]
    = Err CatchAllConflict
  ∧ InsertAll (H:=string) emptyTree [("GET", "/f/*x/more", "x")]
    = Err CatchAllNotLast.
Proof. repeat split; vm_compute; reflexivity. Qed.

(** [net.SplitHostPort] and [remoteAddr] on typical addresses. *)
Example SplitHostPort_examples :
  SplitHostPort "192.0.2.7:4711" = ("192.0.2.7", "4711", None)
  ∧ SplitHostPort "[2001:db8::1]:80" = ("2001:db8::1", "80", None)
  ∧ (SplitHostPort "192.0.2.7").1 = ("", "")
  ∧ (SplitHostPort "2001:db8::1").1 = ("", "")
  ∧ SplitHostPort "" = ("", "", Some "missing port in address")
  ∧ SplitHostPort "pipe"
    = ("", "", Some "address pipe: missing port in address").
Proof. repeat split; vm_compute; reflexivity. Qed.

Example remoteAddr_examples :
  remoteAddr (mkHttpRequest {[ "X-Forwarded-For" := ["203.0.113.9, 10.0.0.1"] ]}
                "192.0.2.7:4711")
  = "203.0.113.9, 10.0.0.1"
  ∧ remoteAddr (mkHttpRequest ∅ "192.0.2.7:4711") = "192.0.2.7"
  ∧ remoteAddr (mkHttpRequest {[ "X-Forwarded-For" := [""] ]} "[::1]:80")
    = "::1"
  ∧ remoteAddr (mkHttpRequest ∅ "pipe") = "".
Proof. repeat split; vm_compute; reflexivity. Qed.

(** ** Part I, continued: more on treemuxotel *)

(** *** Byte search and slicing on concatenations *)

Lemma IndexByte_append (a b : string) (c : ascii) :
  IndexByte (a +:+ b) c
  = match IndexByte a c with
    | Some i => Some i
    | None => (λ i, String.length a + i) <$> IndexByte b c
    end.
Proof.
  induction a as [|x a IH].
  - rewrite append_empty_l. simpl. by destruct (IndexByte b c).
  - rewrite append_cons. simpl. destruct (Ascii.eqb x c); [done|].
    rewrite IH. destruct (IndexByte a c); [done|].
    by destruct (IndexByte b c).
Qed.

Lemma LastIndexByte_append (a b : string) (c : ascii) :
  LastIndexByte (a +:+ b) c
  = match LastIndexByte b c with
    | Some i => Some (String.length a + i)
    | None => LastIndexByte a c
    end.
Proof.
  induction a as [|x a IH].
  - rewrite append_empty_l. simpl. by destruct (LastIndexByte b c).
  - rewrite append_cons. simpl. rewrite IH.
    by destruct (LastIndexByte b c).
Qed.

Lemma LastIndexByte_None (s : string) (c : ascii) :
  LastIndexByte s c = None ↔ IndexByte s c = None.
Proof.
  induction s as [|x s IH]; [done|]. simpl.
  destruct IH as [IH1 IH2].
  destruct (LastIndexByte s c), (IndexByte s c), (Ascii.eqb x c);
    split; intros; try done;
    (by specialize (IH1 eq_refl)) || (by specialize (IH2 eq_refl)).
Qed.

Lemma sliceTo_append (a b : string) : sliceTo (a +:+ b) (String.length a) = a.
Proof.
  unfold sliceTo. induction a as [|x a IH].
  - rewrite append_empty_l. by destruct b.
  - rewrite append_cons. simpl. by rewrite IH.
Qed.

Lemma substring_all (s : string) : String.substring 0 (String.length s) s = s.
Proof. induction s as [|x s IH]; [done|]. simpl. by rewrite IH. Qed.

Lemma substring_skip (a b : string) (m : nat) :
  String.substring (String.length a) m (a +:+ b) = String.substring 0 m b.
Proof. induction a as [|x a IH]; [done|]. rewrite append_cons. simpl. apply IH. Qed.

Lemma sliceFrom_append (a b : string) :
  sliceFrom (a +:+ b) (String.length a) = b.
Proof.
  unfold sliceFrom. rewrite substring_skip, length_append.
  replace (String.length a + String.length b - String.length a)
    with (String.length b) by lia.
  apply substring_all.
Qed.

Lemma slice_append (a b c : string) :
  slice (a +:+ b +:+ c) (String.length a) (String.length a + String.length b)
  = b.
Proof.
  unfold slice. rewrite substring_skip.
  replace (String.length a + String.length b - String.length a)
    with (String.length b) by lia.
  apply (sliceTo_append b c).
Qed.

Lemma append_inj_length (a a' b b' : string) :
  a +:+ b = a' +:+ b' → String.length a = String.length a' →
  a = a' ∧ b = b'.
Proof.
  revert a'. induction a as [|x a IH]; intros [|x' a']; try done.
  rewrite !append_cons. simpl. intros [= -> Hab] [= Hlen].
  by destruct (IH a' Hab Hlen) as [-> ->].
Qed.

(** An index found by [IndexByte] or [LastIndexByte] cuts the string
    around the byte. *)
Lemma IndexByte_Some (s : string) (c : ascii) (i : nat) :
  IndexByte s c = Some i →
  ∃ a b, s = a +:+ String c b ∧ String.length a = i ∧ IndexByte a c = None.
Proof.
  revert i. induction s as [|x s IH]; intros i; [done|]. simpl.
  destruct (Ascii.eqb x c) eqn:Hx.
  - apply Ascii.eqb_eq in Hx as ->. intros [= <-]. by exists "", s.
  - destruct (IndexByte s c) as [j|]; [|done]. intros [= <-].
    destruct (IH j eq_refl) as (a & b & -> & <- & Ha).
    exists (String x a), b. split; [done|]. split; [done|].
    simpl. by rewrite Hx, Ha.
Qed.

Lemma LastIndexByte_Some (s : string) (c : ascii) (i : nat) :
  LastIndexByte s c = Some i →
  ∃ a b, s = a +:+ String c b ∧ String.length a = i ∧ IndexByte b c = None.
Proof.
  revert i. induction s as [|x s IH]; intros i; [done|]. simpl.
  destruct (LastIndexByte s c) as [j|] eqn:Hl.
  - intros [= <-]. destruct (IH j eq_refl) as (a & b & -> & <- & Hb).
    by exists (String x a), b.
  - destruct (Ascii.eqb x c) eqn:Hx; [|done].
    apply Ascii.eqb_eq in Hx as ->. intros [= <-].
    exists "", s. by apply LastIndexByte_None in Hl.
Qed.

(** *** [net.SplitHostPort] on well-formed addresses, and back *)

Lemma SplitHostPort_plain (host port : string) :
  IndexByte host ":" = None → IndexByte host "[" = None →
  IndexByte host "]" = None →
  IndexByte port ":" = None → IndexByte port "[" = None →
  IndexByte port "]" = None →
  SplitHostPort (host +:+ ":" +:+ port) = (host, port, None).
Proof.
  intros Hh1 Hh2 Hh3 Hp1 Hp2 Hp3. unfold SplitHostPort.
  rewrite LastIndexByte_append. rewrite append_cons, append_empty_l.
  apply LastIndexByte_None in Hp1 as Hp1'.
  simpl LastIndexByte. rewrite Hp1'. simpl Ascii.eqb. cbv zeta.
  rewrite Nat.add_0_r.
  rewrite bool_decide_eq_false_2; last first.
  { destruct host as [|x host]; [done|]. rewrite append_cons. simpl.
    apply IndexByte_cons_ne in Hh2 as [Hx _]. congruence. }
  rewrite sliceTo_append, Hh1.
  unfold sliceFrom at 1 2. simpl String.substring at 1 2.
  rewrite Nat.sub_0_r, !substring_all.
  rewrite !IndexByte_append, Hh2, Hh3. simpl IndexByte.
  rewrite Hp2, Hp3. simpl.
  change (String ":" port) with (":" +:+ port).
  rewrite <- append_assoc.
  replace (String.length host + 1) with (String.length (host +:+ ":"))
    by (rewrite length_append; done).
  by rewrite sliceFrom_append.
Qed.

Lemma SplitHostPort_bracketed (host port : string) :
  IndexByte host "[" = None → IndexByte host "]" = None →
  IndexByte port ":" = None → IndexByte port "[" = None →
  IndexByte port "]" = None →
  SplitHostPort ("[" +:+ host +:+ "]:" +:+ port) = (host, port, None).
Proof.
  intros Hh2 Hh3 Hp1 Hp2 Hp3.
  set (hp := "[" +:+ host +:+ "]:" +:+ port).
  assert (Hlast : LastIndexByte hp ":" = Some (String.length host + 2)).
  { unfold hp. rewrite append_cons, append_empty_l. simpl LastIndexByte.
    rewrite LastIndexByte_append. rewrite !append_cons, append_empty_l.
    apply LastIndexByte_None in Hp1 as Hp1'.
    simpl LastIndexByte. rewrite Hp1'. simpl. f_equal. lia. }
  assert (Hend : IndexByte hp "]" = Some (String.length host + 1)).
  { unfold hp. rewrite append_cons, append_empty_l. simpl IndexByte.
    rewrite IndexByte_append, Hh3. rewrite !append_cons. simpl. f_equal. lia. }
  assert (Hlen : String.length hp = String.length host + 3 + String.length port).
  { unfold hp. rewrite !length_append. simpl. lia. }
  assert (Hhost : slice hp 1 (String.length host + 1) = host).
  { replace (String.length host + 1) with (String.length "[" + String.length host)
      by (simpl; lia).
    apply (slice_append "[" host ("]:" +:+ port)). }
  assert (Hj : sliceFrom hp 1 = host +:+ "]:" +:+ port)
    by apply (sliceFrom_append "[" (host +:+ "]:" +:+ port)).
  assert (Hk : sliceFrom hp (String.length host + 1 + 1) = ":" +:+ port).
  { unfold hp. rewrite <- (append_assoc "[" host).
    change ("]:" +:+ port) with ("]" +:+ ":" +:+ port).
    rewrite <- (append_assoc _ "]").
    replace (String.length host + 1 + 1)
      with (String.length (("[" +:+ host) +:+ "]"))
      by (rewrite !length_append; simpl; lia).
    apply sliceFrom_append. }
  assert (Hp : sliceFrom hp (String.length host + 2 + 1) = port).
  { unfold hp. rewrite <- (append_assoc "[" host), <- (append_assoc _ "]:").
    replace (String.length host + 2 + 1)
      with (String.length (("[" +:+ host) +:+ "]:"))
      by (rewrite !length_append; simpl; lia).
    apply sliceFrom_append. }
  unfold SplitHostPort. rewrite Hlast, Hend. cbv zeta.
  rewrite Hhost, Hj, Hk, Hp.
  rewrite (bool_decide_eq_true_2 (String.get 0 hp = _)) by done.
  rewrite (bool_decide_eq_false_2 (_ = String.length hp)) by lia.
  rewrite (bool_decide_eq_true_2 (_ = String.length host + 2)) by lia.
  rewrite !IndexByte_append, Hh2. simpl IndexByte. by rewrite Hp2, Hp3.
Qed.

Lemma sliceFrom_0 (s : string) : sliceFrom s 0 = s.
Proof. unfold sliceFrom. rewrite Nat.sub_0_r. apply substring_all. Qed.

Lemma sliceFrom_after (a b : string) (c : ascii) :
  sliceFrom (a +:+ String c b) (String.length a + 1) = b.
Proof.
  change (String c b) with (String c "" +:+ b). rewrite <- append_assoc.
  replace (String.length a + 1) with (String.length (a +:+ String c ""))
    by (rewrite length_append; done).
  apply sliceFrom_append.
Qed.

Lemma slice_inner (x : ascii) (h tl : string) :
  slice (String x h +:+ tl) 1 (String.length (String x h)) = h.
Proof. apply (slice_append (String x "") h tl). Qed.

Lemma sliceFrom_1 (x : ascii) (s : string) : sliceFrom (String x s) 1 = s.
Proof. apply (sliceFrom_append (String x "") s). Qed.

Lemma SplitHostPort_Ok (hostport host port : string) :
  SplitHostPort hostport = (host, port, None) →
  IndexByte host "[" = None ∧ IndexByte host "]" = None
  ∧ IndexByte port ":" = None ∧ IndexByte port "[" = None
  ∧ IndexByte port "]" = None
  ∧ ((hostport = host +:+ ":" +:+ port ∧ IndexByte host ":" = None)
     ∨ hostport = "[" +:+ host +:+ "]:" +:+ port).
Proof.
  unfold SplitHostPort, addrErr.
  destruct (LastIndexByte hostport ":") as [i|] eqn:Hi; [|done].
  apply LastIndexByte_Some in Hi as (a & b & -> & <- & Hb).
  cbv zeta. rewrite sliceFrom_after.
  case_bool_decide as Hopen.
  - destruct (IndexByte (a +:+ String ":" b) "]") as [e|] eqn:He; [|done].
    case_bool_decide as Hlen; [done|].
    case_bool_decide as Hei; [|by case_bool_decide].
    apply IndexByte_Some in He as (a2 & b2 & Heq & <- & Ha2).
    destruct a2 as [|x h].
    { rewrite append_empty_l in Heq. destruct a; by simplify_eq/=. }
    assert (x = "["%char) as ->.
    { rewrite Heq in Hopen. rewrite append_cons in Hopen. by simplify_eq/=. }
    change (String "[" h +:+ String "]" b2)
      with (String "[" h +:+ "]" +:+ b2) in Heq.
    rewrite <- append_assoc in Heq.
    apply append_inj_length in Heq as [-> <-];
      [|rewrite length_append; simpl in *; lia].
    rewrite (append_assoc _ "]").
    rewrite slice_inner.
    replace (sliceFrom _ (_ + 1)) with (String ":" b)
      by (symmetry; apply (sliceFrom_after (String "[" h) (String ":" b) "]")).
    rewrite (append_cons "[" h), sliceFrom_1.
    apply IndexByte_cons_ne in Ha2 as [_ Hh3].
    rewrite !IndexByte_append. simpl IndexByte.
    destruct (IndexByte h "[") eqn:Hh2; [done|].
    destruct (IndexByte b "[") eqn:Hb2; [done|]. simpl.
    destruct (IndexByte b "]") eqn:Hb3; [done|]. simpl.
    intros [= <- <-]. repeat split; try done. by right.
  - rewrite sliceTo_append, sliceFrom_0.
    destruct (IndexByte a ":") eqn:Ha1; [done|].
    rewrite !IndexByte_append. simpl IndexByte.
    destruct (IndexByte a "[") eqn:Ha2; [done|].
    destruct (IndexByte b "[") eqn:Hb2; [done|]. simpl.
    destruct (IndexByte a "]") eqn:Ha3; [done|].
    destruct (IndexByte b "]") eqn:Hb3; [done|]. simpl.
    intros [= <- <-]. repeat split; try done. by left.
Qed.

(** *** The address reported as [http.client_ip] *)

Lemma Header_Get_first (hdr : gmap string (list string)) (k : string) :
  Header_Get hdr k = default "" ((hdr !! k) ≫= head).
Proof. unfold Header_Get. by destruct (hdr !! k) as [[|v vs]|]. Qed.

(** C10: [remoteAddr] returns a string for every request and never
    fails.  When the first value stored under [X-Forwarded-For] is not
    empty, that value is returned as it stands.  When the header is
    absent, or has no value, or its first value is empty, the result
    is cut out of [RemoteAddr]: the host of [host:port], the host
    without its brackets of [[host]:port], and the empty string
    whenever [RemoteAddr] has neither form, as it has when it holds no
    colon; the error of the split is dropped. *)
Theorem remoteAddr_total (req : HttpRequest) :
  let forwarded := (Header req !! "X-Forwarded-For") ≫= head in
  (∀ v, forwarded = Some v → v ≠ "" → remoteAddr req = v)
  ∧ (forwarded = None ∨ forwarded = Some "" →
     (∀ host port,
         IndexByte host ":" = None → IndexByte host "[" = None →
         IndexByte host "]" = None →
         IndexByte port ":" = None → IndexByte port "[" = None →
         IndexByte port "]" = None →
         RemoteAddr req = host +:+ ":" +:+ port →
         remoteAddr req = host)
     ∧ (∀ host port,
           IndexByte host "[" = None → IndexByte host "]" = None →
           IndexByte port ":" = None → IndexByte port "[" = None →
           IndexByte port "]" = None →
           RemoteAddr req = "[" +:+ host +:+ "]:" +:+ port →
           remoteAddr req = host)
     ∧ ((∀ host port,
            IndexByte host "[" = None → IndexByte host "]" = None →
            IndexByte port ":" = None → IndexByte port "[" = None →
            IndexByte port "]" = None →
            ¬ (RemoteAddr req = host +:+ ":" +:+ port
               ∧ IndexByte host ":" = None)
            ∧ RemoteAddr req ≠ "[" +:+ host +:+ "]:" +:+ port) →
        remoteAddr req = "")
     ∧ (IndexByte (RemoteAddr req) ":" = None → remoteAddr req = "")).
Proof.
  intros forwarded. unfold remoteAddr. rewrite Header_Get_first.
  fold forwarded. split.
  - intros v -> Hv. simpl. by rewrite bool_decide_eq_true_2.
  - intros Hfw.
    assert (Hd : default "" forwarded = "") by (by destruct Hfw as [-> | ->]).
    rewrite Hd. rewrite bool_decide_eq_false_2 by (by intros []).
    split; [|split; [|split]].
    + intros host port Hh1 Hh2 Hh3 Hp1 Hp2 Hp3 ->.
      by rewrite SplitHostPort_plain.
    + intros host port Hh2 Hh3 Hp1 Hp2 Hp3 ->.
      by rewrite SplitHostPort_bracketed.
    + intros Hnone.
      destruct (SplitHostPort (RemoteAddr req)) as [[host port] [why|]] eqn:Hs.
      { by apply SplitHostPort_error in Hs as [-> _]. }
      apply SplitHostPort_Ok in Hs as (Hh2 & Hh3 & Hp1 & Hp2 & Hp3 & Hform).
      destruct (Hnone host port Hh2 Hh3 Hp1 Hp2 Hp3) as [Hplain Hbr].
      by destruct Hform.
    + intros Hnc%LastIndexByte_None. unfold SplitHostPort. by rewrite Hnc.
Qed.


(** X1: for a request without a forwarded address whose [RemoteAddr]
    is [host:port], with no colon or bracket inside the host and the
    port, [remoteAddr] is the host: the port is cut off. *)
Theorem remoteAddr_strips_port (hdr : gmap string (list string))
    (host port : string) :
  Header_Get hdr "X-Forwarded-For" = "" →
  IndexByte host ":" = None → IndexByte host "[" = None →
  IndexByte host "]" = None →
  IndexByte port ":" = None → IndexByte port "[" = None →
  IndexByte port "]" = None →
  remoteAddr (mkHttpRequest hdr (host +:+ ":" +:+ port)) = host.
Proof.
  intros Hfw Hh1 Hh2 Hh3 Hp1 Hp2 Hp3. unfold remoteAddr. simpl.
  rewrite Hfw. rewrite bool_decide_eq_false_2 by (by intros []).
  by rewrite SplitHostPort_plain.
Qed.

(** X2: for a request without a forwarded address whose [RemoteAddr]
    is a bracketed literal followed by a port, [[host]:port],
    [remoteAddr] is the host without its brackets, colons included. *)
Theorem remoteAddr_unbrackets_host (hdr : gmap string (list string))
    (host port : string) :
  Header_Get hdr "X-Forwarded-For" = "" →
  IndexByte host "[" = None → IndexByte host "]" = None →
  IndexByte port ":" = None → IndexByte port "[" = None →
  IndexByte port "]" = None →
  remoteAddr (mkHttpRequest hdr ("[" +:+ host +:+ "]:" +:+ port)) = host.
Proof.
  intros Hfw Hh2 Hh3 Hp1 Hp2 Hp3. unfold remoteAddr. simpl.
  rewrite Hfw. rewrite bool_decide_eq_false_2 by (by intros []).
  by rewrite SplitHostPort_bracketed.
Qed.

(** X3: a [RemoteAddr] without any colon has no port to cut off:
    without a forwarded address [remoteAddr] is then the empty string,
    not the address. *)
Theorem remoteAddr_without_port_is_empty (req : HttpRequest) :
  Header_Get (Header req) "X-Forwarded-For" = "" →
  IndexByte (RemoteAddr req) ":" = None →
  remoteAddr req = "".
Proof.
  intros Hfw Hnc%LastIndexByte_None. unfold remoteAddr.
  rewrite Hfw. rewrite bool_decide_eq_false_2 by (by intros []).
  unfold SplitHostPort. by rewrite Hnc.
Qed.

(** X4: a [RemoteAddr] with two colons that does not open with a
    bracket, such as a bare IPv6 literal, is rejected by the split:
    without a forwarded address [remoteAddr] is the empty string. *)
Theorem remoteAddr_unbracketed_colons_is_empty (req : HttpRequest)
    (a b c : string) :
  Header_Get (Header req) "X-Forwarded-For" = "" →
  String.get 0 (RemoteAddr req) ≠ Some "["%char →
  RemoteAddr req = a +:+ ":" +:+ b +:+ ":" +:+ c →
  remoteAddr req = "".
Proof.
  intros Hfw Hopen Haddr. unfold remoteAddr.
  rewrite Hfw. rewrite bool_decide_eq_false_2 by (by intros []).
  destruct (SplitHostPort (RemoteAddr req)) as [[host port] [why|]] eqn:Hs.
  { by apply SplitHostPort_error in Hs as [-> _]. }
  apply SplitHostPort_Ok in Hs as (_ & _ & Hp1 & _ & _ & [[Heq Hh1]|Heq]).
  - exfalso.
    assert (Hfirst : IndexByte (RemoteAddr req) ":" = Some (String.length host)).
    { rewrite Heq, IndexByte_append, Hh1. simpl. f_equal. lia. }
    assert (Hlast : LastIndexByte (RemoteAddr req) ":"
                    = Some (String.length host)).
    { rewrite Heq, LastIndexByte_append. rewrite append_cons, append_empty_l.
      apply LastIndexByte_None in Hp1. simpl. rewrite Hp1. f_equal. lia. }
    rewrite Haddr in Hfirst, Hlast.
    rewrite IndexByte_append in Hfirst.
    rewrite <- (append_assoc a), <- (append_assoc _ b) in Hlast.
    rewrite LastIndexByte_append in Hlast.
    rewrite append_cons, append_empty_l in Hlast. simpl in Hlast.
    rewrite !length_append in Hlast. simpl in Hlast.
    destruct (IndexByte a ":") as [i|] eqn:Ha.
    + apply IndexByte_Some in Ha as (a1 & a2 & -> & <- & _).
      rewrite length_append in Hlast. simplify_eq/=.
      destruct (LastIndexByte c ":"); simplify_eq/=; lia.
    + simpl in Hfirst. simplify_eq/=.
      destruct (LastIndexByte c ":"); simplify_eq/=; lia.
  - rewrite Heq in Hopen. by rewrite append_cons in Hopen.
Qed.

(** X5: whatever [remoteAddr] takes from [RemoteAddr] is a piece of
    it.  Without a forwarded address a non-empty result [h] means
    that [RemoteAddr] is [h:port] with no colon in [h], or [[h]:port];
    neither [h] nor the port holds a bracket, and the port holds no
    colon. *)
Theorem remoteAddr_is_host_of_RemoteAddr (req : HttpRequest) :
  Header_Get (Header req) "X-Forwarded-For" = "" →
  remoteAddr req ≠ "" →
  ∃ port,
    ((RemoteAddr req = remoteAddr req +:+ ":" +:+ port
      ∧ IndexByte (remoteAddr req) ":" = None)
     ∨ RemoteAddr req = "[" +:+ remoteAddr req +:+ "]:" +:+ port)
    ∧ IndexByte (remoteAddr req) "[" = None
    ∧ IndexByte (remoteAddr req) "]" = None
    ∧ IndexByte port ":" = None ∧ IndexByte port "[" = None
    ∧ IndexByte port "]" = None.
Proof.
  intros Hfw. unfold remoteAddr.
  rewrite Hfw. rewrite bool_decide_eq_false_2 by (by intros []).
  destruct (SplitHostPort (RemoteAddr req)) as [[host port] [why|]] eqn:Hs.
  { by apply SplitHostPort_error in Hs as [-> _]. }
  intros _. exists port.
  apply SplitHostPort_Ok in Hs as (? & ? & ? & ? & ? & ?). done.
Qed.

(** X6: of all the headers [remoteAddr] reads the first value stored
    under [X-Forwarded-For] and nothing else: two header maps that
    agree on it give the same address, and when that value is empty
    the later values of the header are not tried; the address is then
    the host of [RemoteAddr]. *)
Theorem remoteAddr_reads_first_forwarded_value
    (hdr1 hdr2 : gmap string (list string)) (addr : string) :
  (hdr1 !! "X-Forwarded-For") ≫= head = (hdr2 !! "X-Forwarded-For") ≫= head →
  remoteAddr (mkHttpRequest hdr1 addr) = remoteAddr (mkHttpRequest hdr2 addr)
  ∧ ((hdr1 !! "X-Forwarded-For") ≫= head = Some "" →
     remoteAddr (mkHttpRequest hdr1 addr) = (SplitHostPort addr).1.1).
Proof.
  intros Hsame.
  assert (Hget : ∀ hdr : gmap string (list string),
            Header_Get hdr "X-Forwarded-For"
            = default "" ((hdr !! "X-Forwarded-For") ≫= head)).
  { intros hdr. unfold Header_Get.
    by destruct (hdr !! "X-Forwarded-For") as [[|v vs]|]. }
  unfold remoteAddr. simpl. rewrite !Hget, Hsame. split; [done|].
  rewrite <- Hsame. intros ->. simpl.
  by destruct (SplitHostPort addr) as [[host port] err].
Qed.

(** *** The attributes the middleware sets *)

Lemma append_inj_l (a x y : string) : a +:+ x = a +:+ y → x = y.
Proof.
  induction a as [|c a IH]; [done|]. rewrite !append_cons. intros [= H].
  by apply IH.
Qed.

Section MiddlewareFurther.
Context {ResponseWriter Sigma : Type}.
Implicit Types (c : config) (next : HandlerFunc ResponseWriter Sigma)
  (w : ResponseWriter) (req : Request) (σ : World Sigma).

Lemma SetAttributes_recording req attrs σ :
  IsRecording (SpanFromContext req (SetAttributes req attrs σ))
  = IsRecording (SpanFromContext req σ).
Proof.
  unfold SpanFromContext, SetAttributes, IsRecording.
  destruct (ctxSpan req) as [sid|]; [|done]. simpl.
  rewrite lookup_alter_eq. by destruct (spans σ !! sid).
Qed.

Lemma routeAttrs_length c req :
  length (routeAttrs c req)
  = (if clientIP c then 2 else 1) + length (Params req).
Proof.
  rewrite routeAttrs_eq. simpl. rewrite length_app, length_map.
  by destruct (clientIP c).
Qed.

(** X7: on a recording span one call of the wrapped handler adds
    [1 + len(req.Params)] attributes, and one more when the client
    address is reported; the slice built for them never outgrows the
    capacity [2 + len(req.Params)] it is made with. *)
Theorem Middleware_attribute_count c next w req σ :
  IsRecording (SpanFromContext req σ) = true →
  ∃ σ',
    Middleware c next w req σ = next w req σ'
    ∧ length (attributes (SpanFromContext req σ'))
      = length (attributes (SpanFromContext req σ))
        + (if clientIP c then 2 else 1) + length (Params req)
    ∧ length (routeAttrs c req) ≤ 2 + length (Params req).
Proof.
  intros Hrec. exists (SetAttributes req (routeAttrs c req) σ).
  split; [by apply Middleware_recording|].
  rewrite SpanFromContext_SetAttributes by done.
  rewrite length_app, routeAttrs_length.
  split; [lia|]. destruct (clientIP c); lia.
Qed.

(** X8: no route parameter can pass for the route or the client
    address.  Among the attributes set on a recording span the key
    [http.route] occurs once, first, with [req.Route()] as its value;
    the key [http.client_ip] occurs once, with [remoteAddr] as its
    value, when the client address is reported and not at all
    otherwise, whatever the names of the parameters. *)
Theorem Middleware_reserved_keys_once c next w req σ :
  IsRecording (SpanFromContext req σ) = true →
  ∃ σ' added,
    Middleware c next w req σ = next w req σ'
    ∧ attributes (SpanFromContext req σ')
      = attributes (SpanFromContext req σ) ++ added
    ∧ head added = Some (mkKeyValue "http.route" (Route req))
    ∧ filter (λ kv, Key kv = "http.route") added
      = [mkKeyValue "http.route" (Route req)]
    ∧ filter (λ kv, Key kv = "http.client_ip") added
      = if clientIP c
        then [mkKeyValue "http.client_ip" (remoteAddr (Req req))]
        else [].
Proof.
  intros Hrec.
  exists (SetAttributes req (routeAttrs c req) σ), (routeAttrs c req).
  split; [by apply Middleware_recording|].
  split; [by apply SpanFromContext_SetAttributes|].
  rewrite routeAttrs_eq. split; [done|].
  assert (Hparams : ∀ key : string,
            (∀ name, "http.route.param." +:+ name ≠ key) →
            filter (λ kv, Key kv = key)
              (map (λ p : Param,
                      mkKeyValue
                        ("http.route.param." +:+
                           (if bool_decide (Name p = "") then "*" else Name p))
                        (Value p))
                 (Params req)) = []).
  { intros key Hkey. induction (Params req) as [|p ps IH]; [done|].
    simpl. rewrite filter_cons_False; [done|]. simpl. apply Hkey. }
  split.
  - rewrite filter_cons_True by done. f_equal.
    rewrite filter_app, Hparams by (intros name; discriminate).
    rewrite app_nil_r. destruct (clientIP c); [|done].
    by rewrite filter_cons_False.
  - rewrite filter_cons_False by done.
    rewrite filter_app, Hparams by (intros name; discriminate).
    rewrite app_nil_r. destruct (clientIP c); [|done].
    by rewrite filter_cons_True.
Qed.

(** X9: the attribute of the [i]-th parameter sits right after the
    route and the client address and carries the parameter's value.
    Two parameters get the same key exactly when they have the same
    name, or when one has no name and the other is named [*]: nothing
    tells these two apart in the span. *)
Theorem param_attribute_keys_collide_iff c req (i j : nat) (p q : Param) :
  Params req !! i = Some p → Params req !! j = Some q →
  ∃ a b,
    routeAttrs c req !! ((if clientIP c then 2 else 1) + i) = Some a
    ∧ routeAttrs c req !! ((if clientIP c then 2 else 1) + j) = Some b
    ∧ Val a = Value p ∧ Val b = Value q
    ∧ (Key a = Key b
       ↔ Name p = Name q
         ∨ (Name p = "" ∧ Name q = "*") ∨ (Name p = "*" ∧ Name q = "")).
Proof.
  intros Hp Hq.
  set (f := λ p : Param,
              mkKeyValue
                ("http.route.param." +:+
                   (if bool_decide (Name p = "") then "*" else Name p))
                (Value p)).
  assert (Hat : ∀ k r, Params req !! k = Some r →
                  routeAttrs c req !! ((if clientIP c then 2 else 1) + k)
                  = Some (f r)).
  { intros k r Hk. rewrite routeAttrs_eq. fold f.
    destruct (clientIP c); simpl; by rewrite list_lookup_fmap, Hk. }
  exists (f p), (f q). split; [by apply Hat|]. split; [by apply Hat|].
  split; [done|]. split; [done|]. unfold f. simpl. split.
  - intros Hkey%append_inj_l.
    destruct (decide (Name p = "")) as [Hpe|Hpe],
             (decide (Name q = "")) as [Hqe|Hqe].
    + left. congruence.
    + right. left. rewrite bool_decide_eq_true_2 in Hkey by done.
      by rewrite bool_decide_eq_false_2 in Hkey.
    + right. right. rewrite bool_decide_eq_false_2 in Hkey by done.
      by rewrite bool_decide_eq_true_2 in Hkey.
    + left. rewrite !bool_decide_eq_false_2 in Hkey; done.
  - intros [Heq|[[Hpe Hqs]|[Hps Hqe]]]; f_equal.
    + by rewrite Heq.
    + by rewrite Hpe, Hqs.
    + by rewrite Hps, Hqe.
Qed.

(** X10: the middleware does not undo or merge what an earlier
    instance did.  Stacked twice on a recording span, the outer
    instance sets its attributes first, the inner one sets its own
    after them, and only then the handler runs; the span still
    records and nothing but the span has changed. *)
Theorem Middleware_stacked c1 c2 next w req σ :
  IsRecording (SpanFromContext req σ) = true →
  ∃ σ',
    Middleware c1 (Middleware c2 next) w req σ = next w req σ'
    ∧ attributes (SpanFromContext req σ')
      = attributes (SpanFromContext req σ)
          ++ routeAttrs c1 req ++ routeAttrs c2 req
    ∧ IsRecording (SpanFromContext req σ') = true
    ∧ rest σ' = rest σ
    ∧ ∀ sid, ctxSpan req ≠ Some sid → spans σ' !! sid = spans σ !! sid.
Proof.
  intros Hrec.
  set (σ1 := SetAttributes req (routeAttrs c1 req) σ).
  assert (Hrec1 : IsRecording (SpanFromContext req σ1) = true)
    by (unfold σ1; by rewrite SetAttributes_recording).
  exists (SetAttributes req (routeAttrs c2 req) σ1).
  split.
  { rewrite (Middleware_recording c1) by done.
    by rewrite (Middleware_recording c2). }
  split.
  { rewrite SpanFromContext_SetAttributes by done. unfold σ1.
    rewrite SpanFromContext_SetAttributes by done. by rewrite app_assoc. }
  split; [by rewrite SetAttributes_recording|].
  destruct (SetAttributes_frame req (routeAttrs c2 req) σ1) as [Hr2 Hs2].
  destruct (SetAttributes_frame req (routeAttrs c1 req) σ) as [Hr1 Hs1].
  split; [by rewrite Hr2|].
  intros sid Hne. by rewrite Hs2, Hs1.
Qed.

(** X11: with the client address switched off the wrapped handler
    reads nothing of the [http.Request]: two requests with the same
    span, route and parameters leave the same world to [next],
    whatever their headers and remote addresses are. *)
Theorem Middleware_without_clientIP_ignores_http_request
    c next w req σ (other : HttpRequest) :
  clientIP c = false →
  ∃ σ',
    Middleware c next w req σ = next w req σ'
    ∧ Middleware c next w
        (mkRequest other (ctxSpan req) (Route req) (Params req)) σ
      = next w (mkRequest other (ctxSpan req) (Route req) (Params req)) σ'.
Proof.
  intros Hoff. unfold Middleware.
  change (SpanFromContext (mkRequest other (ctxSpan req) (Route req)
                             (Params req)) σ)
    with (SpanFromContext req σ).
  destruct (IsRecording (SpanFromContext req σ)); simpl.
  - exists (SetAttributes req (routeAttrs c req) σ). split; [done|].
    f_equal. rewrite !routeAttrs_eq, Hoff. done.
  - by exists σ.
Qed.
End MiddlewareFurther.

(** *** Instances *)

Lemma remoteAddr_total_witness :
  remoteAddr (mkHttpRequest
                {[ "X-Forwarded-For" := ["203.0.113.9, 10.0.0.1"; "10.0.0.2"] ]}
                "192.0.2.7:4711")
  = "203.0.113.9, 10.0.0.1"
  ∧ remoteAddr (mkHttpRequest ∅ "192.0.2.7:4711") = "192.0.2.7"
  ∧ remoteAddr (mkHttpRequest {[ "X-Forwarded-For" := [""] ]} "[::1]:80")
    = "::1"
  ∧ remoteAddr (mkHttpRequest ∅ "pipe") = "".
Proof.
  split; [|split; [|split]].
  - destruct (remoteAddr_total
                (mkHttpRequest
                   {[ "X-Forwarded-For"
                      := ["203.0.113.9, 10.0.0.1"; "10.0.0.2"] ]}
                   "192.0.2.7:4711")) as [Hforwarded _].
    apply Hforwarded; [vm_compute; reflexivity|discriminate].
  - destruct (remoteAddr_total (mkHttpRequest ∅ "192.0.2.7:4711"))
      as [_ Haddr].
    destruct Haddr as (Hplain & _); [left; vm_compute; reflexivity|].
    apply (Hplain "192.0.2.7" "4711"); reflexivity.
  - destruct (remoteAddr_total
                (mkHttpRequest {[ "X-Forwarded-For" := [""] ]} "[::1]:80"))
      as [_ Haddr].
    destruct Haddr as (_ & Hbracketed & _); [right; vm_compute; reflexivity|].
    apply (Hbracketed "::1" "80"); reflexivity.
  - destruct (remoteAddr_total (mkHttpRequest ∅ "pipe")) as [_ Haddr].
    destruct Haddr as (_ & _ & _ & Hnocolon); [left; vm_compute; reflexivity|].
    apply Hnocolon. reflexivity.
Defined.


Lemma remoteAddr_strips_port_witness :
  remoteAddr (mkHttpRequest ∅ ("192.0.2.7" +:+ ":" +:+ "4711")) = "192.0.2.7".
Proof.
  apply (remoteAddr_strips_port ∅ "192.0.2.7" "4711"); vm_compute; reflexivity.
Defined.

Lemma remoteAddr_unbrackets_host_witness :
  remoteAddr (mkHttpRequest ∅ ("[" +:+ "2001:db8::1" +:+ "]:" +:+ "80"))
  = "2001:db8::1".
Proof.
  apply (remoteAddr_unbrackets_host ∅ "2001:db8::1" "80");
    vm_compute; reflexivity.
Defined.

Lemma remoteAddr_without_port_is_empty_witness :
  remoteAddr (mkHttpRequest ∅ "192.0.2.7") = "".
Proof.
  apply (remoteAddr_without_port_is_empty (mkHttpRequest ∅ "192.0.2.7"));
    vm_compute; reflexivity.
Defined.

Lemma remoteAddr_unbracketed_colons_is_empty_witness :
  remoteAddr (mkHttpRequest ∅ "2001:db8::1") = "".
Proof.
  apply (remoteAddr_unbracketed_colons_is_empty
           (mkHttpRequest ∅ "2001:db8::1") "2001" "db8" ":1").
  - vm_compute. reflexivity.
  - vm_compute. discriminate.
  - reflexivity.
Defined.

Lemma remoteAddr_is_host_of_RemoteAddr_witness :
  remoteAddr (mkHttpRequest ∅ "[::1]:8080") = "::1"
  ∧ ∃ port,
      (("[::1]:8080" = remoteAddr (mkHttpRequest ∅ "[::1]:8080") +:+ ":" +:+ port
        ∧ IndexByte (remoteAddr (mkHttpRequest ∅ "[::1]:8080")) ":" = None)
       ∨ "[::1]:8080"
         = "[" +:+ remoteAddr (mkHttpRequest ∅ "[::1]:8080") +:+ "]:" +:+ port)
      ∧ IndexByte (remoteAddr (mkHttpRequest ∅ "[::1]:8080")) "[" = None
      ∧ IndexByte (remoteAddr (mkHttpRequest ∅ "[::1]:8080")) "]" = None
      ∧ IndexByte port ":" = None ∧ IndexByte port "[" = None
      ∧ IndexByte port "]" = None.
Proof.
  split; [vm_compute; reflexivity|].
  apply (remoteAddr_is_host_of_RemoteAddr (mkHttpRequest ∅ "[::1]:8080")).
  - vm_compute. reflexivity.
  - vm_compute. discriminate.
Defined.

Lemma remoteAddr_reads_first_forwarded_value_witness :
  remoteAddr (mkHttpRequest
                {[ "X-Forwarded-For" := [""; "203.0.113.9"] ]} "192.0.2.7:4711")
  = remoteAddr (mkHttpRequest
                  {[ "X-Forwarded-For" := [""];
                     "X-Real-Ip" := ["198.51.100.4"] ]} "192.0.2.7:4711")
  ∧ remoteAddr (mkHttpRequest
                  {[ "X-Forwarded-For" := [""; "203.0.113.9"] ]}
                  "192.0.2.7:4711")
    = "192.0.2.7".
Proof.
  destruct (remoteAddr_reads_first_forwarded_value
              {[ "X-Forwarded-For" := [""; "203.0.113.9"] ]}
              {[ "X-Forwarded-For" := [""];
                 "X-Real-Ip" := ["198.51.100.4"] ]}
              "192.0.2.7:4711") as [Hsame Hempty].
  - vm_compute. reflexivity.
  - split; [exact Hsame|]. apply Hempty. vm_compute. reflexivity.
Defined.

Lemma Middleware_attribute_count_witness :
  ∃ σ',
    Middleware (mkConfig true) okHandler tt sampleRequest recordingWorld
    = okHandler tt sampleRequest σ'
    ∧ length (attributes (SpanFromContext sampleRequest σ')) = 0 + 2 + 2
    ∧ length (routeAttrs (mkConfig true) sampleRequest) ≤ 2 + 2.
Proof.
  apply (Middleware_attribute_count (mkConfig true) okHandler tt
           sampleRequest recordingWorld).
  reflexivity.
Defined.

Lemma Middleware_reserved_keys_once_witness :
  ∃ σ' added,
    Middleware (mkConfig false) okHandler tt sampleRequest recordingWorld
    = okHandler tt sampleRequest σ'
    ∧ attributes (SpanFromContext sampleRequest σ')
      = attributes (SpanFromContext sampleRequest recordingWorld) ++ added
    ∧ head added = Some (mkKeyValue "http.route" "/user/:id/*")
    ∧ filter (λ kv, Key kv = "http.route") added
      = [mkKeyValue "http.route" "/user/:id/*"]
    ∧ filter (λ kv, Key kv = "http.client_ip") added = [].
Proof.
  apply (Middleware_reserved_keys_once (mkConfig false) okHandler tt
           sampleRequest recordingWorld).
  reflexivity.
Defined.

Lemma param_attribute_keys_collide_iff_witness :
  ∃ a b,
    routeAttrs (mkConfig true) sampleRequest !! (2 + 0) = Some a
    ∧ routeAttrs (mkConfig true) sampleRequest !! (2 + 1) = Some b
    ∧ Val a = "42" ∧ Val b = "a/b"
    ∧ (Key a = Key b
       ↔ "id" = ""
         ∨ ("id" = "" ∧ "" = "*") ∨ ("id" = "*" ∧ "" = "")).
Proof.
  apply (param_attribute_keys_collide_iff (mkConfig true) sampleRequest 0 1
           (mkParam "id" "42") (mkParam "" "a/b")); reflexivity.
Defined.

Lemma Middleware_stacked_witness :
  ∃ σ',
    Middleware (mkConfig true) (Middleware (mkConfig false) okHandler) tt
      sampleRequest recordingWorld
    = okHandler tt sampleRequest σ'
    ∧ attributes (SpanFromContext sampleRequest σ')
      = attributes (SpanFromContext sampleRequest recordingWorld)
          ++ routeAttrs (mkConfig true) sampleRequest
          ++ routeAttrs (mkConfig false) sampleRequest
    ∧ IsRecording (SpanFromContext sampleRequest σ') = true
    ∧ rest σ' = rest recordingWorld
    ∧ ∀ sid, ctxSpan sampleRequest ≠ Some sid →
             spans σ' !! sid = spans recordingWorld !! sid.
Proof.
  apply (Middleware_stacked (mkConfig true) (mkConfig false) okHandler tt
           sampleRequest recordingWorld).
  reflexivity.
Defined.

Lemma Middleware_without_clientIP_ignores_http_request_witness :
  ∃ σ',
    Middleware (mkConfig false) okHandler tt sampleRequest recordingWorld
    = okHandler tt sampleRequest σ'
    ∧ Middleware (mkConfig false) okHandler tt
        (mkRequest
           (mkHttpRequest {[ "X-Forwarded-For" := ["203.0.113.9"] ]}
              "[2001:db8::1]:80")
           (Some 0) "/user/:id/*" [mkParam "id" "42"; mkParam "" "a/b"])
        recordingWorld
      = okHandler tt
          (mkRequest
             (mkHttpRequest {[ "X-Forwarded-For" := ["203.0.113.9"] ]}
                "[2001:db8::1]:80")
             (Some 0) "/user/:id/*" [mkParam "id" "42"; mkParam "" "a/b"])
          σ'.
Proof.
  apply (Middleware_without_clientIP_ignores_http_request (mkConfig false)
           okHandler tt sampleRequest recordingWorld
           (mkHttpRequest {[ "X-Forwarded-For" := ["203.0.113.9"] ]}
              "[2001:db8::1]:80")).
  reflexivity.
Defined.
